(** * ManfanOCR: the page model, the clustering and the text layout of manfan.py

    A shallow embedding of the algorithmic classes of [src/manfan.py]
    ([Box], [BoxGroup], [Page], [Pager] and [Drawer.get_wrapped_text]),
    followed by the properties the specification states about them. *)

From Stdlib Require Import String Ascii.
From Stdlib Require Import List ZArith QArith Bool Arith Lia PrimFloat.
From Stdlib Require Import Permutation.
Import ListNotations.
Close Scope Q_scope.
Set Warnings "-inexact-float".

(** ** Python values *)

(** A Python [str] is a sequence of Unicode code points. *)
Definition char : Type := N.
Definition str : Type := list char.

(** An ASCII literal read as a [str]. *)
Fixpoint lit (s : string) : str :=
  match s with
  | EmptyString => []
  | String a s' => N_of_ascii a :: lit s'
  end.

(** [str.isspace] on one code point, as CPython's [_PyUnicode_IsWhitespace]
    decides it: the characters [str.strip()] and [str.split()] treat as
    white space. *)
Definition isspace (c : char) : bool :=
  ((9 <=? c) && (c <=? 13) || (28 <=? c) && (c <=? 32) ||
   (c =? 133) || (c =? 160) || (c =? 5760) ||
   (8192 <=? c) && (c <=? 8202) ||
   (c =? 8232) || (c =? 8233) || (c =? 8239) || (c =? 8287) ||
   (c =? 12288))%N.

Definition str_eqb (a b : str) : bool :=
  if list_eq_dec N.eq_dec a b then true else false.

(** The exceptions the modelled code can raise. *)
Inductive error : Type :=
| FileNotFoundError (path : str)
| KeyError (key : str)
| IndexError
| RecursionError.

(** A computation that returns a value or raises. *)
Definition result (A : Type) : Type := (error + A)%type.
Definition ret {A} (a : A) : result A := inr a.
Definition raise {A} (e : error) : result A := inl e.
Definition bind {A B} (m : result A) (k : A -> result B) : result B :=
  match m with
  | inl e => inl e
  | inr a => k a
  end.

Declare Scope py_scope.
Delimit Scope py_scope with py.
Notation "x <- m ;; k" := (bind m (fun x => k))
  (at level 61, m at next level, right associativity) : py_scope.
Open Scope py_scope.

(** [l[i]] on a Python list: an [IndexError] out of range. *)
Definition getitem {A} (l : list A) (i : nat) : result A :=
  match nth_error l i with
  | Some a => ret a
  | None => raise IndexError
  end.

(** [d[key]] on a loaded JSON object: a [KeyError] when the key is absent. *)
Definition getkey {A} (key : string) (field : option A) : result A :=
  match field with
  | Some a => ret a
  | None => raise (KeyError (lit key))
  end.

(** ** class Box *)

(** Coordinates are the integer pixel coordinates of the OCR record; the
    score is the binary64 float [json.load] produced. *)
Record Box : Type := mkBox {
  x : Z;
  w : Z;
  y : Z;
  h : Z;
  text : str;
  score : float
}.

(** [Box.__init__(self, text, box, score)]: [box] is [x1, y1, x2, y2]. *)
Definition Box_init (text : str) (box : list Z) (score : float) : result Box :=
  x1 <- getitem box 0 ;;
  x2 <- getitem box 2 ;;
  y1 <- getitem box 1 ;;
  y2 <- getitem box 3 ;;
  ret {| x := x1; w := x2 - x1; y := y1; h := y2 - y1;
         text := text; score := score |}.

(** [Box.overlaps(self, other)]. *)
Definition overlaps (self other : Box) : bool :=
  (x self <=? x other + w other)%Z &&
  (x self + w self >=? x other)%Z &&
  (y self <=? y other + h other)%Z &&
  (y self + h self >=? y other)%Z.

(** ** class Page: the OCR record and [load_boxes] *)

(** The JSON object [json.load] returns, as far as the program reads it:
    each of the three arrays may be missing. *)
Record ocr_data : Type := mkData {
  rec_texts : option (list str);
  rec_scores : option (list float);
  rec_boxes : option (list (list Z))
}.

Definition SCORE_THRESHOLD : float := 0.75%float.

(** [a >= b] on floats. *)
Definition float_ge (a b : float) : bool := PrimFloat.leb b a.

(** One iteration of the loop of [Page.load_boxes]. *)
Definition load_boxes_step (data : ocr_data) (boxes : list Box) (index : nat)
  : result (list Box) :=
  scores <- getkey "rec_scores" (rec_scores data) ;;
  s <- getitem scores index ;;
  if float_ge s SCORE_THRESHOLD then
    texts <- getkey "rec_texts" (rec_texts data) ;;
    t <- getitem texts index ;;
    bs <- getkey "rec_boxes" (rec_boxes data) ;;
    b <- getitem bs index ;;
    scores' <- getkey "rec_scores" (rec_scores data) ;;
    s' <- getitem scores' index ;;
    new_box <- Box_init t b s' ;;
    ret (boxes ++ [new_box])
  else ret boxes.

(** A [for] loop whose body may raise. *)
Fixpoint for_each {A S} (body : S -> A -> result S) (l : list A) (st : S)
  : result S :=
  match l with
  | [] => ret st
  | a :: l' => st' <- body st a ;; for_each body l' st'
  end.

(** [Page.load_boxes], from [self.boxes = []]. *)
Definition load_boxes (data : ocr_data) : result (list Box) :=
  texts <- getkey "rec_texts" (rec_texts data) ;;
  for_each (load_boxes_step data) (seq 0 (length texts)) [].

(** *** Well-formed records: a list of detections *)

Record detection : Type := mkDet {
  det_text : str;
  det_box : Z * Z * Z * Z;
  det_score : float
}.

Definition box_array (b : Z * Z * Z * Z) : list Z :=
  let '(x1, y1, x2, y2) := b in [x1; y1; x2; y2].

(** The record with three parallel arrays of equal length. *)
Definition record_of (dets : list detection) : ocr_data :=
  {| rec_texts := Some (map det_text dets);
     rec_scores := Some (map det_score dets);
     rec_boxes := Some (map (fun d => box_array (det_box d)) dets) |}.

(** The fragment a retained detection becomes. *)
Definition fragment_of (d : detection) : Box :=
  let '(x1, y1, x2, y2) := det_box d in
  {| x := x1; w := x2 - x1; y := y1; h := y2 - y1;
     text := det_text d; score := det_score d |}.

Definition retained (d : detection) : bool :=
  float_ge (det_score d) SCORE_THRESHOLD.

(** ** Python string methods *)

(** [s.lstrip()], [s.rstrip()] and [s.strip()] without argument. *)
Fixpoint lstrip (s : str) : str :=
  match s with
  | [] => []
  | c :: s' => if isspace c then lstrip s' else s
  end.

Definition rstrip (s : str) : str := rev (lstrip (rev s)).

Definition strip (s : str) : str := rstrip (lstrip s).

(** [s.split()] without argument: the maximal runs of characters that are
    not white space; [word] is the run being read. *)
Fixpoint split_from (word : str) (s : str) : list str :=
  match s with
  | [] => match word with [] => [] | _ => [word] end
  | c :: s' =>
      if isspace c then
        match word with
        | [] => split_from [] s'
        | _ => word :: split_from [] s'
        end
      else split_from (word ++ [c]) s'
  end.

Definition split (s : str) : list str := split_from [] s.

(** [s.split(sep)] for a separator of one character. *)
Fixpoint split_on (sep : char) (s : str) : list str :=
  match s with
  | [] => [[]]
  | c :: s' =>
      if (c =? sep)%N then [] :: split_on sep s'
      else match split_on sep s' with
           | l :: ls => (c :: l) :: ls
           | [] => [[c]]
           end
  end.

(** [sep.join(l)]. *)
Fixpoint join (sep : str) (l : list str) : str :=
  match l with
  | [] => []
  | a :: l' =>
      match l' with
      | [] => a
      | _ => a ++ sep ++ join sep l'
      end
  end.

(** [s.rfind(c)] for one character: [None] stands for -1. *)
Fixpoint rfind (c : char) (s : str) : option nat :=
  match s with
  | [] => None
  | a :: s' =>
      match rfind c s' with
      | Some i => Some (S i)
      | None => if (a =? c)%N then Some 0 else None
      end
  end.

(** [Path(p).name] and [Path(p).stem] of pathlib on a POSIX path: the last
    component that is neither empty nor ["."], without its last suffix. *)
Definition path_name (p : str) : str :=
  last (filter (fun c => negb (str_eqb c [] || str_eqb c (lit ".")))
               (split_on 47%N p)) [].

Definition stem (p : str) : str :=
  let name := path_name p in
  match rfind 46%N name with
  | Some i => if (0 <? i) && (i <? length name - 1) then firstn i name else name
  | None => name
  end.

(** ** Objects *)

(** A [Box] object: its identity and its fields.  [Box] defines no
    [__eq__], so [in] on a list of boxes compares identities. *)
Definition obj : Type := (nat * Box)%type.

Definition ident (o : obj) : nat := fst o.
Definition fields (o : obj) : Box := snd o.

Definition same (a b : obj) : bool := ident a =? ident b.

(** [o in l]. *)
Definition contains (l : list obj) (o : obj) : bool := existsb (same o) l.

(** The objects [Page.load_boxes] appended to [self.boxes], each one a
    fresh object: the identity is the position in the list. *)
Definition objects (boxes : list Box) : list obj :=
  combine (seq 0 (length boxes)) boxes.

(** ** class BoxGroup *)

Record BoxGroup : Type := mkGroup {
  boxes : list obj;
  full_text : str;
  full_box : Z * Z * Z * Z;
  translation : str
}.

(** [BoxGroup.__init__(self, box)]. *)
Definition BoxGroup_init (box : obj) : BoxGroup :=
  let b := fields box in
  {| boxes := [box];
     full_text := [];
     full_box := (x b, y b, x b + w b, y b + h b)%Z;
     translation := [] |}.

(** [self.boxes.append(other_box)]. *)
Definition append_box (g : BoxGroup) (o : obj) : BoxGroup :=
  {| boxes := boxes g ++ [o];
     full_text := full_text g;
     full_box := full_box g;
     translation := translation g |}.

(** The two lists [find_next_neighbor] mutates: the group's members and the
    [processed_boxes] it shares with [Page.make_groups]. *)
Definition cluster_state : Type := (BoxGroup * list obj)%type.

(** The loop of [find_next_neighbor] over the rest of [all_boxes]; [recur]
    is the recursive call. *)
Fixpoint neighbor_loop (recur : obj -> cluster_state -> option cluster_state)
    (box : obj) (rest : list obj) (st : cluster_state) : option cluster_state :=
  match rest with
  | [] => Some st
  | other_box :: rest' =>
      if overlaps (fields other_box) (fields box)
         && negb (contains (snd st) other_box)
      then
        match recur other_box
                (append_box (fst st) other_box, snd st ++ [other_box]) with
        | Some st' => neighbor_loop recur box rest' st'
        | None => None
        end
      else neighbor_loop recur box rest' st
  end.

(** [BoxGroup.find_next_neighbor(self, box, all_boxes, processed_boxes)].
    [depth] bounds the depth of the recursion: [None] when it is exceeded. *)
Fixpoint find_next_neighbor (depth : nat) (box : obj) (all_boxes : list obj)
    (st : cluster_state) : option cluster_state :=
  match depth with
  | O => None
  | S depth' =>
      neighbor_loop (fun o s => find_next_neighbor depth' o all_boxes s)
                    box all_boxes st
  end.

(** [range(n - 1, -1, -1)]. *)
Definition range_down (n : nat) : list nat := rev (seq 0 n).

(** [BoxGroup.finish_init(self)]. *)
Definition finish_init (g : BoxGroup) : BoxGroup :=
  let full_text' :=
    fold_left (fun acc index =>
                 match nth_error (boxes g) index with
                 | Some box => acc ++ strip (text (fields box))
                 | None => acc
                 end)
              (range_down (length (boxes g))) (full_text g) in
  let '(b0, b1, b2, b3) :=
    fold_left (fun fb box =>
                 let '(f0, f1, f2, f3) := fb in
                 let b := fields box in
                 (Z.min (x b) f0, Z.min (y b) f1,
                  Z.max (x b + w b) f2, Z.max (y b + h b) f3)%Z)
              (boxes g) (full_box g) in
  {| boxes := boxes g;
     full_text := full_text';
     full_box := (b0, b1, b2 - b0, b3 - b1)%Z;
     translation := translation g |}.

(** ** class Page *)

(** The loop of [Page.make_groups] over the rest of [self.boxes]; the state
    is [self.groups] and [processed_boxes]. *)
Fixpoint make_groups_loop (depth : nat) (all_boxes rest : list obj)
    (groups : list BoxGroup) (processed_boxes : list obj)
  : option (list BoxGroup * list obj) :=
  match rest with
  | [] => Some (groups, processed_boxes)
  | box :: rest' =>
      if negb (contains processed_boxes box) then
        let new_group := BoxGroup_init box in
        match find_next_neighbor depth box all_boxes
                (new_group, processed_boxes ++ [box]) with
        | Some (new_group', processed_boxes') =>
            make_groups_loop depth all_boxes rest'
              (groups ++ [finish_init new_group']) processed_boxes'
        | None => None
        end
      else make_groups_loop depth all_boxes rest' groups processed_boxes
  end.

(** [Page.make_groups] on [self.boxes], from [self.groups = []], together
    with the final [processed_boxes].  The recursion is given a depth of
    one level per box. *)
Definition make_groups_trace (bs : list Box)
  : option (list BoxGroup * list obj) :=
  make_groups_loop (length bs) (objects bs) (objects bs) [] [].

Definition make_groups (bs : list Box) : option (list BoxGroup) :=
  option_map fst (make_groups_trace bs).

Record Page : Type := mkPage {
  image : str;
  data : ocr_data;
  page_boxes : list Box;
  groups : list BoxGroup
}.

(** The files under [output/]: the parsed content of the JSON file at a
    path, when there is one. *)
Definition filesystem : Type := str -> option ocr_data.

Definition json_path (image : str) : str :=
  lit "output/" ++ stem image ++ lit "_res.json".

(** [Page.load_data]. *)
Definition load_data (fs : filesystem) (image : str) : result ocr_data :=
  match fs (json_path image) with
  | Some d => ret d
  | None => raise (FileNotFoundError (json_path image))
  end.

(** [Page(image)] followed by [Page.run]. *)
Definition Page_run (fs : filesystem) (image : str) : result Page :=
  d <- load_data fs image ;;
  bs <- load_boxes d ;;
  match make_groups bs with
  | Some gs => ret {| image := image; data := d; page_boxes := bs; groups := gs |}
  | None => raise RecursionError
  end.

(** ** class Pager *)

(** The loop of [Pager.run]: the final [self.pages], and the exception
    that left the loop, if one did. *)
Fixpoint Pager_loop (fs : filesystem) (images : list str) (pages : list Page)
  : list Page * option error :=
  match images with
  | [] => (pages, None)
  | image :: rest =>
      match Page_run fs image with
      | inr page => Pager_loop fs rest (pages ++ [page])
      | inl e => (pages, Some e)
      end
  end.

Definition Pager_run (fs : filesystem) (images : list str)
  : list Page * option error :=
  Pager_loop fs images [].

(** ** Drawer.get_wrapped_text *)

Section Wrap.

(** [font.getlength]: the measured width of a line, a finite float taken
    at its exact rational value. *)
Variable getlength : str -> Q.

(** The target width, [group.full_box[2]]. *)
Variable width : Z.

Definition fits (line : str) : bool :=
  Qle_bool (getlength line) (inject_Z width).

(** The body of the loop. *)
Definition wrap_step (lines : list str) (word : str) : list str :=
  let line := strip (last lines [] ++ lit " " ++ word) in
  if fits line then removelast lines ++ [line]
  else lines ++ [word].

(** [lines] at the [return]. *)
Definition wrapped_lines (text : str) : list str :=
  fold_left wrap_step (split text) [[]].

Definition get_wrapped_text (text : str) : str :=
  join [10%N] (wrapped_lines text).

End Wrap.

(** ** Vocabulary of the properties *)

(** Two fragments of the page are connected when a chain of fragments of
    the page leads from one to the other, each overlapping the next. *)
Inductive connected (all_boxes : list obj) (a : obj) : obj -> Prop :=
| connected_refl :
    In a all_boxes -> connected all_boxes a a
| connected_step (b c : obj) :
    connected all_boxes a b -> In c all_boxes ->
    overlaps (fields b) (fields c) = true ->
    connected all_boxes a c.

(** The fragments of the page that [processed_boxes] does not hold yet. *)
Definition unclaimed (all_boxes processed_boxes : list obj) : nat :=
  length (filter (fun o => negb (contains processed_boxes o)) all_boxes).

(** A group as the traversal leaves it: the group of its seed, to which the
    discovered members were appended one by one. *)
Definition region (seed : obj) (added : list obj) : BoxGroup :=
  fold_left append_box added (BoxGroup_init seed).

(** What one call of [find_next_neighbor] on [box], or its loop over
    [rest], has done to the state: [added] are the members it appended. *)
Definition traversed (all_boxes : list obj) (box : obj) (rest : list obj)
    (st st' : cluster_state) (added : list obj) : Prop :=
  fst st' = fold_left append_box added (fst st) /\
  snd st' = snd st ++ added /\
  incl added all_boxes /\
  NoDup (map ident added) /\
  (forall o, In o added -> contains (snd st) o = false) /\
  (forall o, In o added -> connected all_boxes box o) /\
  (forall o, In o rest -> overlaps (fields o) (fields box) = true ->
             contains (snd st') o = true) /\
  (forall a o, In a added -> In o all_boxes ->
               overlaps (fields o) (fields a) = true ->
               contains (snd st') o = true).

(** A group of the page is the component of its seed. *)
Definition component (all_boxes : list obj) (g : BoxGroup) : Prop :=
  exists seed added,
    g = finish_init (region seed added) /\
    In seed all_boxes /\
    forall o, In o (boxes g) <-> connected all_boxes seed o.

(** The state of [Page.make_groups] between two iterations: the groups are
    whole components and [processed_boxes] holds their members. *)
Definition grouped (all_boxes : list obj) (groups : list BoxGroup)
    (processed : list obj) : Prop :=
  processed = concat (map boxes groups) /\
  incl processed all_boxes /\
  NoDup (map ident processed) /\
  (forall a o, In a processed -> In o all_boxes ->
               overlaps (fields o) (fields a) = true ->
               contains processed o = true) /\
  Forall (component all_boxes) groups.

(** A rectangle [{x, y, w, h}]. *)
Definition rect : Type := (Z * Z * Z * Z)%type.

Definition rect_of (b : Box) : rect := (x b, y b, w b, h b).

(** [r] contains [a]: no edge of [a] lies outside [r]. *)
Definition encloses (r a : rect) : Prop :=
  let '(rx, ry, rw, rh) := r in
  let '(ax, ay, aw, ah) := a in
  (rx <= ax /\ ry <= ay /\ ax + aw <= rx + rw /\ ay + ah <= ry + rh)%Z.

(** [r] has its left edge at the least [x] of the members, its top edge at
    their least [y], its right edge at their greatest [x + w] and its bottom
    edge at their greatest [y + h]. *)
Definition bounding_box (members : list obj) (r : rect) : Prop :=
  let '(rx, ry, rw, rh) := r in
  (forall m, In m members ->
     (rx <= x (fields m) /\ ry <= y (fields m) /\
      x (fields m) + w (fields m) <= rx + rw /\
      y (fields m) + h (fields m) <= ry + rh)%Z) /\
  (exists m, In m members /\ x (fields m) = rx) /\
  (exists m, In m members /\ y (fields m) = ry) /\
  (exists m, In m members /\ (x (fields m) + w (fields m) = rx + rw)%Z) /\
  (exists m, In m members /\ (y (fields m) + h (fields m) = ry + rh)%Z).

(** The text a member contributes. *)
Definition stripped_text (box : obj) : str := strip (text (fields box)).

(** The corners folded by [finish_init]. *)
Definition fold_corners (l : list obj) (fb : Z * Z * Z * Z) : Z * Z * Z * Z :=
  fold_left (fun fb box =>
               let '(f0, f1, f2, f3) := fb in
               let b := fields box in
               (Z.min (x b) f0, Z.min (y b) f1,
                Z.max (x b + w b) f2, Z.max (y b + h b) f3)%Z)
            l fb.

(** The bounds of a list of members around given starting corners. *)
Definition lower (f : Box -> Z) (l : list obj) (z0 z : Z) : Prop :=
  (z <= z0)%Z /\ (forall m, In m l -> (z <= f (fields m))%Z) /\
  (z = z0 \/ exists m, In m l /\ z = f (fields m)).

Definition upper (f : Box -> Z) (l : list obj) (z0 z : Z) : Prop :=
  (z0 <= z)%Z /\ (forall m, In m l -> (f (fields m) <= z)%Z) /\
  (z = z0 \/ exists m, In m l /\ z = f (fields m)).


(** A word: a non-empty string without white space. *)
Definition is_word (w : str) : bool :=
  match w with
  | [] => false
  | _ => forallb (fun c => negb (isspace c)) w
  end.

(** A string of white space only. *)
Definition blank (s : str) : bool := forallb isspace s.

(** A string whose first character is not white space. *)
Definition starts (s : str) : bool :=
  match s with
  | [] => false
  | c :: _ => negb (isspace c)
  end.

(** A string whose last character is not white space. *)
Definition ends (s : str) : bool := starts (rev s).

(** A character of a wrapped line: no white space but the space that
    joins two words. *)
Definition line_char (c : char) : bool := negb (isspace c) || (c =? 32)%N.

(** A line that passed the width test, or a word of the text put on a line
    of its own. *)
Definition checked (getlength : str -> Q) (width : Z) (words : list str)
    (line : str) : Prop :=
  fits getlength width line = true \/ In line words.

(** The lines of [get_wrapped_text] during the loop: only the first one may
    be the empty line the loop started with. *)
Definition lines_ok (getlength : str -> Q) (width : Z) (words : list str)
    (lines : list str) : Prop :=
  exists first rest,
    lines = first :: rest /\
    (first = [] \/ checked getlength width words first) /\
    Forall (checked getlength width words) rest.

(** Lines without a line break. *)
Definition clean (lines : list str) : Prop :=
  lines <> [] /\ Forall (Forall (fun c => line_char c = true)) lines.

(** A line within the target width, or a single word of the text that is
    itself wider than the target. *)
Definition within (getlength : str -> Q) (width : Z) (words : list str)
    (line : str) : Prop :=
  (getlength line <= inject_Z width)%Q \/
  (is_word line = true /\ In line words /\
   (inject_Z width < getlength line)%Q).

(** A measurement that does not shrink when text is appended. *)
Definition monotone (getlength : str -> Q) : Prop :=
  forall a b : str, (getlength a <= getlength (a ++ b))%Q.

(** The measurement that counts ten pixels per character. *)
Definition ten_per_char (s : str) : Q := inject_Z (10 * Z.of_nat (length s)).

(** An [output/] directory that holds the record of [good.png] only, a
    record without detections. *)
Definition only_good : filesystem :=
  fun path =>
    if str_eqb path (lit "output/good_res.json") then Some (record_of [])
    else None.

(** The point [(px, py)] lies in the rectangle of [b], edges included. *)
Definition inside (b : Box) (px py : Z) : Prop :=
  (x b <= px <= x b + w b /\ y b <= py <= y b + h b)%Z.

(** A string that is empty or has no white space at either end. *)
Definition trimmed (s : str) : Prop :=
  s = [] \/ (starts s = true /\ ends s = true).

(** A line made of its words with one space between two of them. *)
Definition normal (line : str) : Prop := join (lit " ") (split line) = line.

(** Every line of [rest] starts with a word that did not fit at the end of
    the line before it, [prev] for the first one. *)
Fixpoint greedy (getlength : str -> Q) (width : Z) (prev : str)
    (rest : list str) : Prop :=
  match rest with
  | [] => True
  | next :: rest' =>
      (exists w ws, split next = w :: ws /\
                    fits getlength width (strip (prev ++ lit " " ++ w)) = false) /\
      greedy getlength width next rest'
  end.

(** An [output/] directory with the record of [page.png]: two overlapping
    detections and one below the threshold. *)
Definition one_page : filesystem :=
  fun path =>
    if str_eqb path (lit "output/page_res.json") then
      Some (record_of [mkDet (lit "A") (0, 0, 10, 10)%Z 1%float;
                       mkDet (lit "x") (50, 50, 60, 60)%Z 0.5%float;
                       mkDet (lit "B") (5, 5, 15, 15)%Z 0.75%float])
    else None.

(** ** class Translator *)

(** [group.translation = ...]. *)
Definition set_translation (g : BoxGroup) (t : str) : BoxGroup :=
  {| boxes := boxes g;
     full_text := full_text g;
     full_box := full_box g;
     translation := t |}.

Definition set_groups (p : Page) (gs : list BoxGroup) : Page :=
  {| image := image p;
     data := data p;
     page_boxes := page_boxes p;
     groups := gs |}.

Section Translator.

Context {engine : Type}.

(** [self.engine.translate]: the translation service answers a text and
    moves to a new state. *)
Variable translate : engine -> str -> engine * str.

(** The inner loop of [Translator.run] over the groups of a page. *)
Fixpoint translate_groups (e : engine) (gs : list BoxGroup)
  : engine * list BoxGroup :=
  match gs with
  | [] => (e, [])
  | group :: gs' =>
      let '(e1, t) := translate e (full_text group) in
      let '(e2, gs2) := translate_groups e1 gs' in
      (e2, set_translation group t :: gs2)
  end.

(** [Translator.run]: the final state of the service, the lines printed and
    the pages. *)
Fixpoint Translator_run (e : engine) (pages : list Page)
  : engine * list str * list Page :=
  match pages with
  | [] => (e, [], [])
  | page :: pages' =>
      let line := lit "Translating image: '" ++ image page ++ lit "'" in
      let '(e1, gs) := translate_groups e (groups page) in
      let '(e2, lines, pages2) := Translator_run e1 pages' in
      (e2, line :: lines, set_groups page gs :: pages2)
  end.

(** The answers of the service to a list of texts asked in order. *)
Fixpoint ask_all (e : engine) (texts : list str) : engine * list str :=
  match texts with
  | [] => (e, [])
  | t :: texts' =>
      let '(e1, a) := translate e t in
      let '(e2, answers) := ask_all e1 texts' in
      (e2, a :: answers)
  end.

End Translator.

(** ** class Drawer *)

(** What the drawer prints and asks of the imaging library, in order. *)
Inductive event : Type :=
| Print (line : str)
| ImageOpen (path : str)
| Rectangle (x0 y0 x1 y1 : Z) (fill outline : option str)
| MultilineText (px py : Z) (content : str) (fill : str)
| ImageSave (path : str) (format : str).

Section Drawer.

(** [self.font.getlength]. *)
Variable getlength : str -> Q.

Variable is_debug : bool.

(** [Drawer.fill_old_text(group, draw)]. *)
Definition fill_old_text (group : BoxGroup) : list event :=
  map (fun box =>
         let b := fields box in
         Rectangle (x b) (y b) (x b + w b) (y b + h b)
                   (Some (lit "white")) None)
      (boxes group).

(** [Drawer.debug_draw(self, group, draw)]. *)
Definition debug_draw (group : BoxGroup) : list event :=
  if negb is_debug then []
  else
    let '(b0, b1, b2, b3) := full_box group in
    [Rectangle b0 b1 (b0 + b2) (b1 + b3) None (Some (lit "red"))].

(** [Drawer.draw_translation(self, group, draw)]. *)
Definition draw_translation (group : BoxGroup) : list event :=
  let '(b0, b1, b2, b3) := full_box group in
  let wrapped_text := get_wrapped_text getlength b2 (translation group) in
  [MultilineText b0 b1 wrapped_text (lit "black")].

Definition jpg_path (image : str) : str :=
  lit "output/" ++ stem image ++ lit ".jpg".

(** The body of the loop over the groups of a page. *)
Definition draw_group (page : Page) (group : BoxGroup) : list event :=
  fill_old_text group ++ debug_draw group ++ draw_translation group ++
  [ImageSave (jpg_path (image page)) (lit "JPEG")].

(** The body of the loop over the pages. *)
Definition draw_page (page : Page) : list event :=
  [Print (lit "Drawing image: '" ++ image page ++ lit "'");
   ImageOpen (image page)] ++
  flat_map (draw_group page) (groups page).

(** [Drawer.run]. *)
Definition Drawer_run (pages : list Page) : list event :=
  flat_map draw_page pages ++ [Print (lit "Done!")].

End Drawer.

(** The saves among the events. *)
Definition is_save (e : event) : bool :=
  match e with
  | ImageSave _ _ => true
  | _ => false
  end.

(** The rectangle an event draws lies within [r]. *)
Definition drawn_within (r : rect) (e : event) : Prop :=
  match e with
  | Rectangle x0 y0 x1 y1 _ _ =>
      let '(rx, ry, rw, rh) := r in
      (rx <= x0 /\ ry <= y0 /\ x1 <= rx + rw /\ y1 <= ry + rh)%Z
  | _ => True
  end.

(** The place in [Page.boxes] of the first member of a group. *)
Definition first_ident (g : BoxGroup) : nat :=
  match boxes g with
  | [] => 0
  | seed :: _ => ident seed
  end.

(** Groups made from seeds that come before place [k] of [Page.boxes]:
    every group starts with its earliest member, and the groups come in the
    order of their first members. *)
Definition ordered (k : nat) (gs : list BoxGroup) : Prop :=
  Forall (fun g => exists seed added,
              boxes g = seed :: added /\ ident seed < k /\
              Forall (fun m => ident seed < ident m) added) gs /\
  (forall i j g g',
      i < j -> nth_error gs i = Some g -> nth_error gs j = Some g' ->
      first_ident g < first_ident g').

(** ** The main program *)

(** The main program from [pager.run()] on, for a run without [--debug], on
    the images the reader returned: the error that ended it, or the final
    state of the translation service with what was printed and asked of the
    imaging library. *)
Definition main_after_reader {engine : Type}
    (fs : filesystem) (translate : engine -> str -> engine * str) (e : engine)
    (getlength : str -> Q) (images : list str)
  : result (engine * list event) :=
  match Pager_run fs images with
  | (_, Some err) => raise err
  | (pages, None) =>
      let '(e', lines, pages') := Translator_run translate e pages in
      ret (e', map Print lines ++ Drawer_run getlength false pages')
  end.

(** A translation service that answers every text with itself. *)
Definition echo (e : unit) (t : str) : unit * str := (e, t).

(** * Properties *)

(** ** Box.overlaps *)

Lemma overlaps_spec (a b : Box) :
  overlaps a b = true <->
  (x a <= x b + w b /\ x a + w a >= x b /\
   y a <= y b + h b /\ y a + h a >= y b)%Z.
Proof.
  unfold overlaps.
  rewrite !andb_true_iff, !Z.leb_le, !Z.geb_le. lia.
Qed.

Lemma overlaps_sym (a b : Box) : overlaps a b = overlaps b a.
Proof.
  apply eq_true_iff_eq. rewrite !overlaps_spec. lia.
Qed.

(** C8: [Box.overlaps] is symmetric and is the intersection-or-touching
    test on the two rectangles: [A.x <= B.x+B.w], [A.x+A.w >= B.x],
    [A.y <= B.y+B.h] and [A.y+A.h >= B.y]; rectangles that share only an
    edge or a corner overlap, rectangles one pixel apart do not. *)
Theorem overlaps_symmetric_aabb :
  (forall a b : Box, overlaps a b = overlaps b a) /\
  (forall a b : Box,
      overlaps a b = true <->
      (x a <= x b + w b /\ x a + w a >= x b /\
       y a <= y b + h b /\ y a + h a >= y b)%Z) /\
  (forall t s t' s', overlaps (mkBox 0 10 0 10 t s) (mkBox 10 10 0 10 t' s') = true) /\
  (forall t s t' s', overlaps (mkBox 0 10 0 10 t s) (mkBox 10 10 10 10 t' s') = true) /\
  (forall t s t' s', overlaps (mkBox 0 10 0 10 t s) (mkBox 11 10 0 10 t' s') = false).
Proof.
  split; [exact overlaps_sym|].
  split; [exact overlaps_spec|].
  repeat split; reflexivity.
Qed.

(** ** Page.load_boxes *)

Lemma getitem_map {A B} (f : A -> B) (l : list A) (i : nat) (a : A) :
  nth_error l i = Some a -> getitem (map f l) i = ret (f a).
Proof.
  intros H. unfold getitem. rewrite nth_error_map, H. reflexivity.
Qed.

Lemma Box_init_array (t : str) (d : detection) :
  Box_init (det_text d) (box_array (det_box d)) (det_score d) = ret (fragment_of d).
Proof.
  unfold fragment_of. destruct (det_box d) as [[[x1 y1] x2] y2]. reflexivity.
Qed.

Lemma load_boxes_step_record (dets : list detection) (i : nat) (d : detection)
    (acc : list Box) :
  nth_error dets i = Some d ->
  load_boxes_step (record_of dets) acc i =
  ret (if retained d then acc ++ [fragment_of d] else acc).
Proof.
  intros H. unfold load_boxes_step, record_of, retained, getkey.
  cbn [rec_scores rec_texts rec_boxes bind ret].
  rewrite (getitem_map det_score _ _ _ H).
  cbn [bind ret].
  destruct (float_ge (det_score d) SCORE_THRESHOLD); [|reflexivity].
  rewrite (getitem_map det_text _ _ _ H).
  rewrite (getitem_map (fun d => box_array (det_box d)) _ _ _ H).
  cbn [bind ret].
  rewrite (Box_init_array (det_text d)). reflexivity.
Qed.

Lemma load_boxes_loop_record (pre suf : list detection) (acc : list Box) :
  for_each (load_boxes_step (record_of (pre ++ suf)))
           (seq (length pre) (length suf)) acc =
  ret (acc ++ map fragment_of (filter retained suf)).
Proof.
  revert pre acc. induction suf as [|d suf IH]; intros pre acc; simpl.
  - rewrite app_nil_r. reflexivity.
  - rewrite (load_boxes_step_record (pre ++ d :: suf) (length pre) d).
    2:{ rewrite nth_error_app2, Nat.sub_diag by lia. reflexivity. }
    simpl.
    replace (pre ++ d :: suf) with ((pre ++ [d]) ++ suf)
      by (rewrite <- app_assoc; reflexivity).
    replace (S (length pre)) with (length (pre ++ [d]))
      by (rewrite length_app; simpl; lia).
    rewrite IH. destruct (retained d); simpl.
    + rewrite <- app_assoc. reflexivity.
    + reflexivity.
Qed.

Lemma load_boxes_record_of (dets : list detection) :
  load_boxes (record_of dets) = ret (map fragment_of (filter retained dets)).
Proof.
  unfold load_boxes; simpl. rewrite length_map.
  apply (load_boxes_loop_record [] dets []).
Qed.

(** C4: on every list of detections [Page.load_boxes] keeps exactly the
    detections whose score is at least 0.75, in their order, each as the
    fragment with its text, box and score; the test is [0.75 <= score], so
    the boundary is kept.  For the scores 0.9, 0.5, 0.75 and 0.74999 the
    first and the third detection are kept. *)
Theorem load_boxes_confidence_filter :
  (forall dets : list detection,
      load_boxes (record_of dets) = inr (map fragment_of (filter retained dets))) /\
  (forall d : detection,
      retained d = PrimFloat.leb 0.75%float (det_score d)) /\
  (forall (t1 t2 t3 t4 : str) (b1 b2 b3 b4 : Z * Z * Z * Z),
      load_boxes (record_of [mkDet t1 b1 0.9%float; mkDet t2 b2 0.5%float;
                             mkDet t3 b3 0.75%float; mkDet t4 b4 0.74999%float]) =
      inr [fragment_of (mkDet t1 b1 0.9%float);
           fragment_of (mkDet t3 b3 0.75%float)]).
Proof.
  split; [exact load_boxes_record_of|].
  split; [reflexivity|].
  intros. rewrite load_boxes_record_of. reflexivity.
Qed.

(** ** BoxGroup.finish_init *)

Lemma map_nth_error_seq {A} (l : list A) :
  map (nth_error l) (seq 0 (length l)) = map Some l.
Proof.
  induction l as [|a l IH]; [reflexivity|].
  cbn [length seq map nth_error]. f_equal.
  rewrite <- seq_shift, map_map. exact IH.
Qed.

Lemma fold_left_map {A B C} (f : A -> C -> A) (g : B -> C) (l : list B) (a : A) :
  fold_left (fun acc b => f acc (g b)) l a = fold_left f (map g l) a.
Proof.
  revert a. induction l as [|b l IH]; intros a; simpl; [reflexivity|apply IH].
Qed.

Lemma fold_left_concat {A B} (f : B -> list A) (l : list B) (acc : list A) :
  fold_left (fun acc b => acc ++ f b) l acc = acc ++ concat (map f l).
Proof.
  revert acc. induction l as [|b l IH]; intros acc; simpl.
  - rewrite app_nil_r. reflexivity.
  - rewrite IH, app_assoc. reflexivity.
Qed.

Lemma finish_init_text (g : BoxGroup) :
  full_text (finish_init g) =
  full_text g ++ concat (map stripped_text (rev (boxes g))).
Proof.
  unfold finish_init.
  destruct (fold_left _ (boxes g) (full_box g)) as [[[b0 b1] b2] b3].
  cbn [full_text]. unfold range_down.
  rewrite (fold_left_map
             (fun acc o => match o with
                           | Some box => acc ++ strip (text (fields box))
                           | None => acc
                           end) (nth_error (boxes g))).
  rewrite map_rev, map_nth_error_seq, <- map_rev.
  rewrite <- (fold_left_map (fun acc (o : option obj) =>
                match o with
                | Some box => acc ++ strip (text (fields box))
                | None => acc
                end) Some).
  apply (fold_left_concat stripped_text).
Qed.

Lemma finish_init_boxes (g : BoxGroup) : boxes (finish_init g) = boxes g.
Proof.
  unfold finish_init.
  destruct (fold_left _ (boxes g) (full_box g)) as [[[b0 b1] b2] b3].
  reflexivity.
Qed.

(** The members and the rest of the group after a run of [append]s. *)
Lemma append_boxes_boxes (added : list obj) (g : BoxGroup) :
  boxes (fold_left append_box added g) = boxes g ++ added.
Proof.
  revert g. induction added as [|o added IH]; intros g; simpl.
  - rewrite app_nil_r. reflexivity.
  - rewrite IH. simpl. rewrite <- app_assoc. reflexivity.
Qed.

Lemma append_boxes_rest (added : list obj) (g : BoxGroup) :
  full_text (fold_left append_box added g) = full_text g /\
  full_box (fold_left append_box added g) = full_box g /\
  translation (fold_left append_box added g) = translation g.
Proof.
  revert g. induction added as [|o added IH]; intros g; simpl.
  - auto.
  - destruct (IH (append_box g o)) as (H1 & H2 & H3).
    rewrite H1, H2, H3. auto.
Qed.

Lemma finish_init_box (g : BoxGroup) :
  full_box (finish_init g) =
  let '(b0, b1, b2, b3) := fold_corners (boxes g) (full_box g) in
  (b0, b1, b2 - b0, b3 - b1)%Z.
Proof.
  unfold finish_init, fold_corners.
  destruct (fold_left _ (boxes g) (full_box g)) as [[[b0 b1] b2] b3].
  reflexivity.
Qed.

Lemma fold_corners_bounds (l : list obj) (a0 a1 a2 a3 : Z) :
  let '(b0, b1, b2, b3) := fold_corners l (a0, a1, a2, a3) in
  lower x l a0 b0 /\ lower y l a1 b1 /\
  upper (fun b => x b + w b)%Z l a2 b2 /\
  upper (fun b => y b + h b)%Z l a3 b3.
Proof.
  revert a0 a1 a2 a3. induction l as [|m l IH]; intros a0 a1 a2 a3.
  - cbn. unfold lower, upper. repeat split; try lia; try (intros ? []); auto.
  - cbn [fold_corners fold_left].
    specialize (IH (Z.min (x (fields m)) a0) (Z.min (y (fields m)) a1)
                   (Z.max (x (fields m) + w (fields m)) a2)
                   (Z.max (y (fields m) + h (fields m)) a3)).
    unfold fold_corners in IH.
    destruct (fold_left _ l _) as [[[b0 b1] b2] b3].
    destruct IH as ((L0 & L0' & L0'') & (L1 & L1' & L1'') &
                    (U2 & U2' & U2'') & (U3 & U3' & U3'')).
    unfold lower, upper.
    repeat split; try lia.
    + intros m' [<-|Hin]; [lia|auto].
    + destruct L0'' as [->|(m' & Hin & ->)]; [|right; exists m'; simpl; auto].
      destruct (Z.min_spec (x (fields m)) a0) as [[_ ->]|[_ ->]];
        [right; exists m; simpl; auto|left; reflexivity].
    + intros m' [<-|Hin]; [lia|auto].
    + destruct L1'' as [->|(m' & Hin & ->)]; [|right; exists m'; simpl; auto].
      destruct (Z.min_spec (y (fields m)) a1) as [[_ ->]|[_ ->]];
        [right; exists m; simpl; auto|left; reflexivity].
    + intros m' [<-|Hin]; [lia|auto].
    + destruct U2'' as [->|(m' & Hin & ->)]; [|right; exists m'; simpl; auto].
      destruct (Z.max_spec (x (fields m) + w (fields m)) a2) as [[_ ->]|[_ ->]];
        [left; reflexivity|right; exists m; simpl; auto].
    + intros m' [<-|Hin]; [lia|auto].
    + destruct U3'' as [->|(m' & Hin & ->)]; [|right; exists m'; simpl; auto].
      destruct (Z.max_spec (y (fields m) + h (fields m)) a3) as [[_ ->]|[_ ->]];
        [left; reflexivity|right; exists m; simpl; auto].
Qed.
(** ** The traversal *)

Lemma in_contains (l : list obj) (o : obj) : In o l -> contains l o = true.
Proof.
  intros H. unfold contains. apply existsb_exists. exists o. split; [exact H|].
  unfold same. apply Nat.eqb_refl.
Qed.

Lemma contains_app (l1 l2 : list obj) (o : obj) :
  contains (l1 ++ l2) o = contains l1 o || contains l2 o.
Proof. unfold contains. apply existsb_app. Qed.

Lemma contains_ident (l : list obj) (o : obj) :
  contains l o = true <-> In (ident o) (map ident l).
Proof.
  unfold contains. rewrite existsb_exists, in_map_iff. unfold same.
  split; intros (o' & H1 & H2).
  - exists o'. apply Nat.eqb_eq in H2. auto.
  - exists o'. split; [exact H2|]. apply Nat.eqb_eq. auto.
Qed.

Lemma connected_in (all_boxes : list obj) (a b : obj) :
  connected all_boxes a b -> In a all_boxes /\ In b all_boxes.
Proof. induction 1; tauto. Qed.

Lemma connected_trans (all_boxes : list obj) (a b c : obj) :
  connected all_boxes a b -> connected all_boxes b c -> connected all_boxes a c.
Proof.
  intros Hab Hbc. induction Hbc as [_|c d _ IH Hd Hov].
  - exact Hab.
  - apply connected_step with c; auto.
Qed.

Lemma connected_sym (all_boxes : list obj) (a b : obj) :
  connected all_boxes a b -> connected all_boxes b a.
Proof.
  induction 1 as [Ha|b c Hab IH Hc Hov].
  - apply connected_refl, Ha.
  - apply connected_trans with b; [|exact IH].
    apply connected_step with c.
    + apply connected_refl, Hc.
    + apply (connected_in _ _ _ Hab).
    + rewrite overlaps_sym. exact Hov.
Qed.

Section Traversal.

Variable all_boxes : list obj.

Lemma neighbor_loop_traversed
    (recur : obj -> cluster_state -> option cluster_state) :
  (forall o s s', In o all_boxes -> recur o s = Some s' ->
                  exists added, traversed all_boxes o all_boxes s s' added) ->
  forall rest box st st',
    incl rest all_boxes -> In box all_boxes ->
    neighbor_loop recur box rest st = Some st' ->
    exists added, traversed all_boxes box rest st st' added.
Proof.
  intros Hrec rest. induction rest as [|other rest IH];
    intros box [g proc] st' Hrest Hbox Hrun; cbn [neighbor_loop] in Hrun.
  - injection Hrun as <-. exists []. cbn.
    repeat split; auto using app_nil_r, incl_nil_l, NoDup_nil;
      try (intros; contradiction).
  - assert (Hother : In other all_boxes) by (apply Hrest; left; reflexivity).
    assert (Hrest' : incl rest all_boxes)
      by (intros o Ho; apply Hrest; right; exact Ho).
    cbn [fst snd] in Hrun.
    destruct (overlaps (fields other) (fields box)) eqn:Hov;
      cbn [andb] in Hrun.
    + destruct (contains proc other) eqn:Hproc; cbn [negb] in Hrun.
      * destruct (IH box (g, proc) st' Hrest' Hbox Hrun)
          as (added & H1 & H2 & H3 & H4 & H5 & H6 & H7 & H8).
        exists added. repeat split; auto.
        intros o [<-|Ho] Hov'; [|auto].
        rewrite H2. cbn [snd]. rewrite contains_app, Hproc. reflexivity.
      * destruct (recur other (append_box g other, proc ++ [other]))
          as [[g1 proc1]|] eqn:Hcall; [|discriminate].
        destruct (Hrec _ _ _ Hother Hcall)
          as (added1 & A1 & A2 & A3 & A4 & A5 & A6 & A7 & A8).
        destruct (IH box (g1, proc1) st' Hrest' Hbox Hrun)
          as (added2 & B1 & B2 & B3 & B4 & B5 & B6 & B7 & B8).
        cbn [fst snd] in *.
        assert (Hbo : connected all_boxes box other).
        { apply connected_step with box; [apply connected_refl, Hbox|exact Hother|].
          rewrite overlaps_sym. exact Hov. }
        exists (other :: added1 ++ added2).
        assert (Hfinal : snd st' = proc ++ other :: added1 ++ added2).
        { rewrite B2, A2, <- !app_assoc. reflexivity. }
        repeat split.
        -- rewrite B1, A1. cbn [fold_left]. rewrite fold_left_app. reflexivity.
        -- exact Hfinal.
        -- intros o [<-|Ho]; [exact Hother|].
           apply in_app_or in Ho as [Ho|Ho]; auto.
        -- cbn [map]. rewrite map_app. constructor.
           ++ intros Hin. apply in_app_or in Hin as [Hin|Hin].
              ** apply in_map_iff in Hin as (o & Hid & Ho).
                 specialize (A5 o Ho). rewrite contains_app in A5.
                 apply orb_false_elim in A5 as [_ A5].
                 cbn in A5. unfold same in A5. rewrite Hid, Nat.eqb_refl in A5.
                 discriminate.
              ** apply in_map_iff in Hin as (o & Hid & Ho).
                 specialize (B5 o Ho). rewrite A2, !contains_app in B5.
                 apply orb_false_elim in B5 as [B5 _].
                 apply orb_false_elim in B5 as [_ B5].
                 cbn in B5. unfold same in B5. rewrite Hid, Nat.eqb_refl in B5.
                 discriminate.
           ++ apply NoDup_app; auto.
              intros i Hi1 Hi2.
              apply in_map_iff in Hi2 as (o & Hid & Ho).
              specialize (B5 o Ho). rewrite A2, contains_app in B5.
              apply orb_false_elim in B5 as [_ B5].
              assert (contains added1 o = true) as Hc
                by (apply contains_ident; rewrite Hid; exact Hi1).
              congruence.
        -- intros o [<-|Ho]; [exact Hproc|].
           apply in_app_or in Ho as [Ho|Ho].
           ++ specialize (A5 o Ho). rewrite contains_app in A5.
              apply orb_false_elim in A5 as [A5 _]. exact A5.
           ++ specialize (B5 o Ho). rewrite A2, !contains_app in B5.
              apply orb_false_elim in B5 as [B5 _].
              apply orb_false_elim in B5 as [B5 _]. exact B5.
        -- intros o [<-|Ho]; [exact Hbo|].
           apply in_app_or in Ho as [Ho|Ho]; [|auto].
           apply connected_trans with other; auto.
        -- intros o [<-|Ho] Hov'; [|auto].
           rewrite Hfinal, contains_app. apply orb_true_iff. right.
           apply in_contains. left. reflexivity.
        -- intros a o [<-|Ha] Ho Hov'.
           ++ rewrite B2, contains_app. apply orb_true_iff. left. auto.
           ++ apply in_app_or in Ha as [Ha|Ha].
              ** rewrite B2, contains_app. apply orb_true_iff. left. eauto.
              ** eauto.
    + destruct (IH box (g, proc) st' Hrest' Hbox Hrun)
        as (added & H1 & H2 & H3 & H4 & H5 & H6 & H7 & H8).
      exists added. repeat split; auto.
      intros o [<-|Ho] Hov'; [congruence|auto].
Qed.

End Traversal.

Lemma find_next_neighbor_traversed (all_boxes : list obj) (depth : nat) :
  forall box st st',
    In box all_boxes ->
    find_next_neighbor depth box all_boxes st = Some st' ->
    exists added, traversed all_boxes box all_boxes st st' added.
Proof.
  induction depth as [|depth IH]; intros box st st' Hbox Hrun.
  - discriminate.
  - cbn [find_next_neighbor] in Hrun.
    apply neighbor_loop_traversed with (4 := Hrun); auto using incl_refl.
Qed.

(** *** The pool of unclaimed fragments shrinks *)

Lemma filter_length_le {A} (f g : A -> bool) (l : list A) :
  (forall a, In a l -> f a = true -> g a = true) ->
  length (filter f l) <= length (filter g l).
Proof.
  induction l as [|a l IH]; intros H; cbn [filter]; [lia|].
  assert (IH' : length (filter f l) <= length (filter g l))
    by (apply IH; intros; apply H; [right|]; assumption).
  destruct (f a) eqn:Hf.
  - rewrite (H a (or_introl eq_refl) Hf). cbn [length]. lia.
  - destruct (g a); cbn [length]; lia.
Qed.

Lemma filter_length_lt {A} (f g : A -> bool) (l : list A) (a : A) :
  (forall a, In a l -> f a = true -> g a = true) ->
  In a l -> f a = false -> g a = true ->
  length (filter f l) < length (filter g l).
Proof.
  induction l as [|b l IH]; intros H Hin Hf Hg; [contradiction|].
  cbn [filter].
  assert (Hl : forall a, In a l -> f a = true -> g a = true)
    by (intros; apply H; [right|]; assumption).
  destruct Hin as [->|Hin].
  - rewrite Hf, Hg. cbn [length].
    pose proof (filter_length_le f g l Hl). lia.
  - specialize (IH Hl Hin Hf Hg).
    destruct (f b) eqn:Hfb.
    + rewrite (H b (or_introl eq_refl) Hfb). cbn [length]. lia.
    + destruct (g b); cbn [length]; lia.
Qed.

Lemma unclaimed_app_le (all_boxes processed added : list obj) :
  unclaimed all_boxes (processed ++ added) <= unclaimed all_boxes processed.
Proof.
  apply filter_length_le. intros o _. rewrite contains_app.
  destruct (contains processed o); [discriminate|reflexivity].
Qed.

Lemma unclaimed_claim (all_boxes processed : list obj) (o : obj) :
  In o all_boxes -> contains processed o = false ->
  unclaimed all_boxes (processed ++ [o]) < unclaimed all_boxes processed.
Proof.
  intros Hin Hc. apply filter_length_lt with o; auto.
  - intros a _. rewrite contains_app.
    destruct (contains processed a); [discriminate|reflexivity].
  - rewrite contains_app, (in_contains [o] o (or_introl eq_refl)), orb_true_r.
    reflexivity.
  - rewrite Hc. reflexivity.
Qed.

Lemma unclaimed_le_length (all_boxes processed : list obj) :
  unclaimed all_boxes processed <= length all_boxes.
Proof.
  unfold unclaimed. generalize (fun o => negb (contains processed o)).
  intros f. induction all_boxes as [|a l IH]; cbn [filter length]; [lia|].
  destruct (f a); cbn [length]; lia.
Qed.

Lemma neighbor_loop_returns (all_boxes : list obj) (n : nat)
    (recur : obj -> cluster_state -> option cluster_state) :
  (forall o s, In o all_boxes -> unclaimed all_boxes (snd s) < n ->
               exists s', recur o s = Some s') ->
  (forall o s s', In o all_boxes -> recur o s = Some s' ->
                  exists added, traversed all_boxes o all_boxes s s' added) ->
  forall rest box st,
    incl rest all_boxes ->
    unclaimed all_boxes (snd st) < S n ->
    exists st', neighbor_loop recur box rest st = Some st'.
Proof.
  intros Hret Hspec rest. induction rest as [|other rest IH];
    intros box [g proc] Hrest Hlt; cbn [neighbor_loop].
  - eauto.
  - assert (Hother : In other all_boxes) by (apply Hrest; left; reflexivity).
    assert (Hrest' : incl rest all_boxes)
      by (intros o Ho; apply Hrest; right; exact Ho).
    cbn [fst snd] in *.
    destruct (overlaps (fields other) (fields box) && negb (contains proc other))
      eqn:Hcond; [|apply IH; assumption].
    apply andb_true_iff in Hcond as [_ Hc]. apply negb_true_iff in Hc.
    pose proof (unclaimed_claim all_boxes proc other Hother Hc) as Hshrink.
    destruct (Hret other (append_box g other, proc ++ [other]) Hother)
      as [[g1 proc1] Hcall]; [cbn [snd]; lia|].
    rewrite Hcall.
    destruct (Hspec _ _ _ Hother Hcall) as (added & _ & Hproc1 & _).
    cbn [snd] in Hproc1.
    apply IH; [assumption|]. cbn [snd]. rewrite Hproc1.
    pose proof (unclaimed_app_le all_boxes (proc ++ [other]) added). lia.
Qed.

Lemma find_next_neighbor_returns (all_boxes : list obj) (depth : nat) :
  forall box st,
    unclaimed all_boxes (snd st) < depth ->
    exists st', find_next_neighbor depth box all_boxes st = Some st'.
Proof.
  induction depth as [|depth IH]; intros box st Hlt; [lia|].
  cbn [find_next_neighbor].
  apply neighbor_loop_returns with (all_boxes := all_boxes) (n := depth);
    auto using incl_refl.
  intros o s s' Ho Hrun.
  apply find_next_neighbor_traversed with depth; assumption.
Qed.

(** *** Page.make_groups *)

Lemma ident_inj (l : list obj) (a b : obj) :
  NoDup (map ident l) -> In a l -> In b l -> ident a = ident b -> a = b.
Proof.
  induction l as [|c l IH]; intros Hnd Ha Hb Hid; [contradiction|].
  cbn [map] in Hnd. inversion Hnd as [|? ? Hnotin Hnd']; subst.
  destruct Ha as [->|Ha], Hb as [->|Hb]; auto.
  - exfalso. apply Hnotin. rewrite Hid. apply in_map, Hb.
  - exfalso. apply Hnotin. rewrite <- Hid. apply in_map, Ha.
Qed.

Lemma contains_in (all_boxes l : list obj) (o : obj) :
  NoDup (map ident all_boxes) -> incl l all_boxes -> In o all_boxes ->
  contains l o = true -> In o l.
Proof.
  intros Hnd Hl Ho Hc. apply existsb_exists in Hc as (o' & Hin & Hsame).
  apply Nat.eqb_eq in Hsame.
  rewrite (ident_inj all_boxes o o' Hnd Ho (Hl _ Hin) Hsame). exact Hin.
Qed.

Lemma region_boxes (seed : obj) (added : list obj) :
  boxes (finish_init (region seed added)) = seed :: added.
Proof.
  rewrite finish_init_boxes. unfold region. rewrite append_boxes_boxes.
  reflexivity.
Qed.

Lemma make_groups_step_grouped (all_boxes : list obj) (groups : list BoxGroup)
    (processed : list obj) (box : obj) (g' : BoxGroup) (processed' : list obj)
    (added : list obj) :
  NoDup (map ident all_boxes) ->
  grouped all_boxes groups processed ->
  In box all_boxes ->
  contains processed box = false ->
  traversed all_boxes box all_boxes (BoxGroup_init box, processed ++ [box])
            (g', processed') added ->
  grouped all_boxes (groups ++ [finish_init g']) processed'.
Proof.
  intros Hnd (G1 & G2 & G3 & G4 & G5) Hbox Hc
         (T1 & T2 & T3 & T4 & T5 & T6 & T7 & T8).
  cbn [fst snd] in *.
  assert (Hg' : g' = region box added) by exact T1.
  assert (Hp' : processed' = processed ++ box :: added)
    by (rewrite T2, <- app_assoc; reflexivity).
  assert (Hincl : incl processed' all_boxes).
  { rewrite Hp'. apply incl_app; [exact G2|].
    intros o [<-|Ho]; auto. }
  assert (Hfresh : forall o, In o (box :: added) -> contains processed o = false).
  { intros o [<-|Ho]; [exact Hc|].
    specialize (T5 o Ho). rewrite contains_app in T5.
    apply orb_false_elim in T5 as [T5 _]. exact T5. }
  repeat split.
  - rewrite map_app, concat_app. cbn [map concat].
    rewrite Hg', region_boxes, app_nil_r, <- G1. exact Hp'.
  - exact Hincl.
  - rewrite Hp', map_app. apply NoDup_app; [exact G3| |].
    + cbn [map]. constructor; [|exact T4].
      intros Hin. apply in_map_iff in Hin as (o & Hid & Ho).
      specialize (T5 o Ho). rewrite contains_app in T5.
      apply orb_false_elim in T5 as [_ T5].
      cbn in T5. unfold same in T5. rewrite Hid, Nat.eqb_refl in T5.
      discriminate.
    + intros i Hi1 Hi2. apply in_map_iff in Hi2 as (o & Hid & Ho).
      assert (contains processed o = true) as Hco
        by (apply contains_ident; rewrite Hid; exact Hi1).
      rewrite (Hfresh o Ho) in Hco. discriminate.
  - intros a o Ha Ho Hov. rewrite Hp' in Ha.
    apply in_app_or in Ha as [Ha|[<-|Ha]].
    + rewrite Hp', contains_app, (G4 a o Ha Ho Hov). reflexivity.
    + apply T7; assumption.
    + apply T8 with a; assumption.
  - apply Forall_app. split; [exact G5|]. constructor; [|constructor].
    exists box, added. rewrite Hg'. split; [reflexivity|]. split; [exact Hbox|].
    intros o. rewrite region_boxes. split.
    + intros [<-|Ho]; [apply connected_refl, Hbox|auto].
    + induction 1 as [Ha|b c Hab IH Hcin Hov].
      * left. reflexivity.
      * assert (Hb : In b all_boxes) by apply (connected_in _ _ _ Hab).
        assert (Hcp : contains processed' c = true).
        { destruct IH as [<-|Hb'].
          - apply T7; [exact Hcin|]. rewrite overlaps_sym. exact Hov.
          - apply T8 with b; auto. rewrite overlaps_sym. exact Hov. }
        apply (contains_in all_boxes processed' c Hnd Hincl Hcin) in Hcp.
        rewrite Hp' in Hcp. apply in_app_or in Hcp as [Hcp|Hcp]; [|exact Hcp].
        exfalso. pose proof (G4 c b Hcp Hb Hov) as Hbp.
        rewrite (Hfresh b IH) in Hbp. discriminate.
Qed.

Lemma make_groups_loop_grouped (all_boxes : list obj) (depth : nat) :
  NoDup (map ident all_boxes) ->
  length all_boxes <= depth ->
  forall rest groups processed,
    incl rest all_boxes ->
    grouped all_boxes groups processed ->
    exists groups' processed',
      make_groups_loop depth all_boxes rest groups processed =
        Some (groups', processed') /\
      grouped all_boxes groups' processed' /\
      (exists more, processed' = processed ++ more) /\
      (forall o, In o rest -> contains processed' o = true).
Proof.
  intros Hnd Hdepth rest. induction rest as [|box rest IH];
    intros groups processed Hrest Hg; cbn [make_groups_loop].
  - exists groups, processed.
    split; [reflexivity|]. split; [exact Hg|]. split.
    + exists []. symmetry. apply app_nil_r.
    + intros o [].
  - assert (Hbox : In box all_boxes) by (apply Hrest; left; reflexivity).
    assert (Hrest' : incl rest all_boxes)
      by (intros o Ho; apply Hrest; right; exact Ho).
    destruct (contains processed box) eqn:Hc; cbn [negb].
    + destruct (IH groups processed Hrest' Hg)
        as (groups' & processed' & Hrun & Hg' & [more Hmore] & Hall).
      exists groups', processed'.
      split; [exact Hrun|]. split; [exact Hg'|]. split.
      * exists more. exact Hmore.
      * intros o [<-|Ho]; [|auto].
        rewrite Hmore, contains_app, Hc. reflexivity.
    + destruct (find_next_neighbor_returns all_boxes depth box
                  (BoxGroup_init box, processed ++ [box]))
        as [[g1 processed1] Hcall].
      { cbn [snd].
        pose proof (unclaimed_claim all_boxes processed box Hbox Hc).
        pose proof (unclaimed_le_length all_boxes processed). lia. }
      rewrite Hcall.
      destruct (find_next_neighbor_traversed all_boxes depth box _ _ Hbox Hcall)
        as [added Htr].
      pose proof (make_groups_step_grouped _ _ _ _ _ _ _ Hnd Hg Hbox Hc Htr) as Hg1.
      destruct Htr as (_ & T2 & _). cbn [snd] in T2.
      destruct (IH _ _ Hrest' Hg1)
        as (groups' & processed' & Hrun & Hg' & [more Hmore] & Hall).
      exists groups', processed'.
      split; [exact Hrun|]. split; [exact Hg'|]. split.
      * exists ([box] ++ added ++ more).
        rewrite Hmore, T2, <- !app_assoc. reflexivity.
      * intros o [<-|Ho]; [|auto].
        rewrite Hmore, T2, !contains_app.
        rewrite (in_contains [box] box (or_introl eq_refl)), orb_true_r.
        reflexivity.
Qed.

Lemma objects_ident (bs : list Box) : map ident (objects bs) = seq 0 (length bs).
Proof.
  unfold objects. generalize 0.
  induction bs as [|b bs IH]; intros n; cbn; [reflexivity|].
  f_equal. apply IH.
Qed.

Lemma objects_NoDup (bs : list Box) : NoDup (map ident (objects bs)).
Proof. rewrite objects_ident. apply seq_NoDup. Qed.

Lemma objects_length (bs : list Box) : length (objects bs) = length bs.
Proof. rewrite <- (length_map ident), objects_ident. apply length_seq. Qed.

Lemma objects_fields (bs : list Box) : map fields (objects bs) = bs.
Proof.
  unfold objects. generalize 0.
  induction bs as [|b bs IH]; intros n; cbn; [reflexivity|].
  f_equal. apply IH.
Qed.

Lemma make_groups_trace_grouped (bs : list Box) :
  exists groups processed,
    make_groups_trace bs = Some (groups, processed) /\
    grouped (objects bs) groups processed /\
    (forall o, In o (objects bs) -> In o processed).
Proof.
  destruct (make_groups_loop_grouped (objects bs) (length bs)
              (objects_NoDup bs)
              (eq_ind_r (fun n => n <= length bs) (le_n _) (objects_length bs))
              (objects bs) [] [] (incl_refl _))
    as (groups & processed & Hrun & Hg & _ & Hall).
  { split; [reflexivity|]. split; [apply incl_nil_l|].
    split; [constructor|]. split; [intros a o []|constructor]. }
  exists groups, processed. split; [exact Hrun|]. split; [exact Hg|].
  intros o Ho. destruct Hg as (_ & G2 & _).
  apply (contains_in (objects bs) processed o (objects_NoDup bs) G2 Ho).
  auto.
Qed.

(** ** The enclosing rectangle and the text of a region *)

Lemma region_full_box (seed : obj) (added : list obj) :
  bounding_box (seed :: added) (full_box (finish_init (region seed added))).
Proof.
  rewrite finish_init_box.
  replace (boxes (region seed added)) with (seed :: added)
    by (unfold region; rewrite append_boxes_boxes; reflexivity).
  replace (full_box (region seed added))
    with (x (fields seed), y (fields seed),
          x (fields seed) + w (fields seed),
          y (fields seed) + h (fields seed))%Z
    by (unfold region; symmetry; apply append_boxes_rest).
  pose proof (fold_corners_bounds (seed :: added)
                (x (fields seed)) (y (fields seed))
                (x (fields seed) + w (fields seed))%Z
                (y (fields seed) + h (fields seed))%Z) as H.
  destruct (fold_corners _ _) as [[[b0 b1] b2] b3].
  destruct H as ((L0 & L0' & L0'') & (L1 & L1' & L1'') &
                 (U2 & U2' & U2'') & (U3 & U3' & U3'')).
  assert (Hseed : In seed (seed :: added)) by (left; reflexivity).
  unfold bounding_box. repeat split.
  - apply L0'; assumption.
  - apply L1'; assumption.
  - specialize (U2' m H). lia.
  - specialize (U3' m H). lia.
  - destruct L0'' as [->|(m & Hm & ->)]; eauto.
  - destruct L1'' as [->|(m & Hm & ->)]; eauto.
  - destruct U2'' as [->|(m & Hm & ->)]; [exists seed|exists m]; split; auto; lia.
  - destruct U3'' as [->|(m & Hm & ->)]; [exists seed|exists m]; split; auto; lia.
Qed.

Lemma bounding_box_encloses (members : list obj) (r : rect) :
  bounding_box members r ->
  (forall m, In m members -> encloses r (rect_of (fields m))) /\
  (forall r', (forall m, In m members -> encloses r' (rect_of (fields m))) ->
              encloses r' r).
Proof.
  destruct r as [[[rx ry] rw] rh].
  intros (Hall & (m0 & I0 & E0) & (m1 & I1 & E1) & (m2 & I2 & E2) & (m3 & I3 & E3)).
  split.
  - intros m Hm. unfold encloses, rect_of. apply Hall, Hm.
  - intros [[[rx' ry'] rw'] rh'] H.
    pose proof (H m0 I0) as H0. pose proof (H m1 I1) as H1.
    pose proof (H m2 I2) as H2. pose proof (H m3 I3) as H3.
    unfold encloses, rect_of in *. lia.
Qed.

Lemma region_singleton_box (seed : obj) :
  full_box (finish_init (region seed [])) = rect_of (fields seed).
Proof.
  rewrite finish_init_box. cbn. unfold rect_of.
  rewrite !Z.min_id, !Z.max_id. repeat f_equal; lia.
Qed.

Lemma region_full_text (seed : obj) (added : list obj) :
  full_text (finish_init (region seed added)) =
  concat (map stripped_text (rev (seed :: added))).
Proof.
  rewrite finish_init_text.
  replace (boxes (region seed added)) with (seed :: added)
    by (unfold region; rewrite append_boxes_boxes; reflexivity).
  replace (full_text (region seed added)) with (@nil char)
    by (unfold region; symmetry; apply append_boxes_rest).
  reflexivity.
Qed.

Lemma make_groups_components (bs : list Box) (gs : list BoxGroup) :
  make_groups bs = Some gs -> Forall (component (objects bs)) gs.
Proof.
  unfold make_groups.
  destruct (make_groups_trace_grouped bs) as (groups & processed & Hrun & Hg & _).
  rewrite Hrun. cbn. intros [= <-]. apply Hg.
Qed.

Lemma make_groups_regions (bs : list Box) (gs : list BoxGroup) (g : BoxGroup) :
  make_groups bs = Some gs -> In g gs ->
  exists seed added, g = finish_init (region seed added) /\ boxes g = seed :: added.
Proof.
  intros Hrun Hin.
  pose proof (make_groups_components bs gs Hrun) as Hall.
  rewrite Forall_forall in Hall.
  destruct (Hall g Hin) as (seed & added & -> & _).
  exists seed, added. split; [reflexivity|apply region_boxes].
Qed.

(** ** The clustering of a page *)

(** C1: on every list of fragments [Page.make_groups] returns groups whose
    members, taken together, are the fragments of the page, each one once;
    and two fragments are members of one group exactly when a chain of
    pairwise overlapping fragments of the page connects them. *)
Theorem make_groups_partition (bs : list Box) :
  exists gs,
    make_groups bs = Some gs /\
    Permutation (concat (map boxes gs)) (objects bs) /\
    NoDup (map ident (concat (map boxes gs))) /\
    Permutation (map fields (concat (map boxes gs))) bs /\
    (forall a b,
        (exists g, In g gs /\ In a (boxes g) /\ In b (boxes g)) <->
        connected (objects bs) a b).
Proof.
  destruct (make_groups_trace_grouped bs)
    as (gs & processed & Hrun & (G1 & G2 & G3 & G4 & G5) & Hall).
  exists gs. rewrite <- G1.
  assert (Hperm : Permutation processed (objects bs)).
  { apply NoDup_Permutation.
    - apply NoDup_map_inv with (f := ident). exact G3.
    - apply NoDup_map_inv with (f := ident). apply objects_NoDup.
    - intros o. split; [apply G2|apply Hall]. }
  split; [unfold make_groups; rewrite Hrun; reflexivity|].
  split; [exact Hperm|]. split; [exact G3|]. split.
  { pose proof (Permutation_map fields Hperm) as Hf.
    rewrite objects_fields in Hf. exact Hf. }
  rewrite Forall_forall in G5.
  intros a b. split.
  - intros (g & Hg & Ha & Hb).
    destruct (G5 g Hg) as (seed & added & _ & _ & Hcomp).
    apply connected_trans with seed.
    + apply connected_sym, Hcomp, Ha.
    + apply Hcomp, Hb.
  - intros Hab.
    assert (Ha : In a processed) by (apply Hall, (connected_in _ _ _ Hab)).
    rewrite G1 in Ha. apply in_concat in Ha as (l & Hl & Ha).
    apply in_map_iff in Hl as (g & <- & Hg).
    exists g. split; [exact Hg|]. split; [exact Ha|].
    destruct (G5 g Hg) as (seed & added & _ & _ & Hcomp).
    apply Hcomp. apply connected_trans with a; [|exact Hab].
    apply Hcomp, Ha.
Qed.

(** C9: the clustering terminates on every list of fragments.
    [Page.make_groups] returns, and no fragment is claimed twice; a call of
    [find_next_neighbor] returns as soon as the recursion may go deeper than
    the number of unclaimed fragments, it claims only fragments that were
    unclaimed, each once; and every recursive call is made after claiming
    one more fragment, so on a strictly smaller pool. *)
Theorem clustering_terminates :
  (forall bs : list Box,
      exists gs processed,
        make_groups_trace bs = Some (gs, processed) /\
        NoDup (map ident processed) /\
        Permutation processed (objects bs)) /\
  (forall all_boxes depth box st,
      In box all_boxes ->
      unclaimed all_boxes (snd st) < depth ->
      exists st' added,
        find_next_neighbor depth box all_boxes st = Some st' /\
        snd st' = snd st ++ added /\
        NoDup (map ident added) /\
        (forall o, In o added -> contains (snd st) o = false) /\
        unclaimed all_boxes (snd st') <= unclaimed all_boxes (snd st)) /\
  (forall all_boxes processed o,
      In o all_boxes -> contains processed o = false ->
      unclaimed all_boxes (processed ++ [o]) < unclaimed all_boxes processed).
Proof.
  split; [|split].
  - intros bs.
    destruct (make_groups_trace_grouped bs)
      as (gs & processed & Hrun & (G1 & G2 & G3 & G4 & G5) & Hall).
    exists gs, processed. split; [exact Hrun|]. split; [exact G3|].
    apply NoDup_Permutation.
    + apply NoDup_map_inv with (f := ident). exact G3.
    + apply NoDup_map_inv with (f := ident). apply objects_NoDup.
    + intros o. split; [apply G2|apply Hall].
  - intros all_boxes depth box st Hbox Hlt.
    destruct (find_next_neighbor_returns all_boxes depth box st Hlt)
      as [st' Hrun].
    destruct (find_next_neighbor_traversed all_boxes depth box st st' Hbox Hrun)
      as (added & _ & T2 & _ & T4 & T5 & _).
    exists st', added. split; [exact Hrun|]. split; [exact T2|].
    split; [exact T4|]. split; [exact T5|].
    rewrite T2. apply unclaimed_app_le.
  - exact unclaimed_claim.
Qed.

(** ** The regions of a page *)

(** C2: the text [finish_init] assembles is the concatenation of the
    members' stripped texts from the last member appended to the first, for
    every group of a seed and appended members and so for every group
    [Page.make_groups] returns.  The boxes [0,0,10,10] with text "A" and
    [5,5,15,15] with the text of the one character U+3042 give one group,
    with the text U+3042 "A" and the rectangle [{x:0, y:0, w:15, h:15}]. *)
Theorem finish_init_text_reversed :
  (forall g : BoxGroup,
      full_text (finish_init g) =
      full_text g ++ concat (map stripped_text (rev (boxes g)))) /\
  (forall seed added,
      full_text (finish_init (region seed added)) =
      concat (map stripped_text (rev (seed :: added)))) /\
  (forall bs gs g,
      make_groups bs = Some gs -> In g gs ->
      full_text g = concat (map stripped_text (rev (boxes g)))) /\
  (forall s1 s2 : float,
      let a := fragment_of (mkDet (lit "A") (0, 0, 10, 10)%Z s1) in
      let b := fragment_of (mkDet [12354%N] (5, 5, 15, 15)%Z s2) in
      make_groups [a; b] =
      Some [{| boxes := [(0, a); (1, b)];
               full_text := [12354%N; 65%N];
               full_box := (0, 0, 15, 15)%Z;
               translation := [] |}]).
Proof.
  split; [exact finish_init_text|]. split; [exact region_full_text|]. split.
  - intros bs gs g Hrun Hin.
    destruct (make_groups_regions bs gs g Hrun Hin) as (seed & added & -> & Hb).
    rewrite region_full_text, region_boxes. reflexivity.
  - intros s1 s2. reflexivity.
Qed.

(** C3: after [finish_init] the rectangle of a group has its left and top
    edges at the least [x] and [y] of the members and its right and bottom
    edges at their greatest [x + w] and [y + h]; it contains the rectangle
    of every member, and every rectangle that contains them all contains it;
    for a group of one member it is that member's rectangle.  This holds for
    every group of a seed and appended members and so for every group
    [Page.make_groups] returns. *)
Theorem finish_init_enclosing_rectangle :
  (forall seed added,
      bounding_box (seed :: added) (full_box (finish_init (region seed added)))) /\
  (forall bs gs g,
      make_groups bs = Some gs -> In g gs ->
      bounding_box (boxes g) (full_box g)) /\
  (forall members r,
      bounding_box members r ->
      (forall m, In m members -> encloses r (rect_of (fields m))) /\
      (forall r', (forall m, In m members -> encloses r' (rect_of (fields m))) ->
                  encloses r' r)) /\
  (forall seed,
      full_box (finish_init (region seed [])) = rect_of (fields seed)).
Proof.
  split; [exact region_full_box|]. split.
  - intros bs gs g Hrun Hin.
    destruct (make_groups_regions bs gs g Hrun Hin) as (seed & added & -> & Hb).
    rewrite region_boxes. apply region_full_box.
  - split; [exact bounding_box_encloses|exact region_singleton_box].
Qed.

(** ** strip, split and join *)

Lemma lstrip_starts (s : str) : starts s = true -> lstrip s = s.
Proof.
  destruct s as [|c s]; [reflexivity|]. cbn.
  destruct (isspace c); [discriminate|reflexivity].
Qed.

Lemma strip_tight (s : str) : starts s = true -> ends s = true -> strip s = s.
Proof.
  intros Hs He. unfold strip, rstrip.
  rewrite (lstrip_starts s Hs), (lstrip_starts (rev s) He). apply rev_involutive.
Qed.

Lemma lstrip_blank (pre s : str) : blank pre = true -> lstrip (pre ++ s) = lstrip s.
Proof.
  induction pre as [|c pre IH]; [reflexivity|]. cbn.
  intros H. apply andb_true_iff in H as [Hc Hpre]. rewrite Hc. auto.
Qed.

Lemma blank_rev (s : str) : blank (rev s) = blank s.
Proof.
  unfold blank. apply eq_true_iff_eq. rewrite !forallb_forall.
  split; intros H c Hc; apply H.
  - apply in_rev in Hc. exact Hc.
  - apply in_rev. exact Hc.
Qed.

Lemma lstrip_all_blank (s : str) : blank s = true -> lstrip s = [].
Proof.
  intros H. rewrite <- (app_nil_r s). rewrite lstrip_blank; auto.
Qed.

Lemma starts_app (a b : str) : starts a = true -> starts (a ++ b) = true.
Proof. destruct a; [discriminate|auto]. Qed.

Lemma ends_app (a b : str) : ends b = true -> ends (a ++ b) = true.
Proof. unfold ends. rewrite rev_app_distr. apply starts_app. Qed.

Lemma word_nonspace (w : str) :
  is_word w = true -> forallb (fun c => negb (isspace c)) w = true.
Proof. destruct w; [discriminate|auto]. Qed.

Lemma word_starts (w : str) : is_word w = true -> starts w = true.
Proof.
  destruct w as [|c w]; [discriminate|]. cbn.
  intros H. apply andb_true_iff in H. tauto.
Qed.

Lemma word_rev (w : str) : is_word w = true -> is_word (rev w) = true.
Proof.
  intros H. pose proof (word_nonspace w H) as Hall.
  assert (Hne : rev w <> []).
  { destruct w; [discriminate|]. cbn. intros E. apply app_eq_nil in E as [_ E].
    discriminate. }
  unfold is_word. destruct (rev w) as [|c0 r] eqn:E; [contradiction|]. rewrite <- E.
  apply forallb_forall. intros c Hc. apply in_rev in Hc.
  rewrite forallb_forall in Hall. auto.
Qed.

Lemma word_ends (w : str) : is_word w = true -> ends w = true.
Proof. intros H. apply word_starts, word_rev, H. Qed.

Lemma strip_word (w : str) : is_word w = true -> strip w = w.
Proof. intros H. apply strip_tight; [apply word_starts|apply word_ends]; exact H. Qed.

(** The candidate line of the first word. *)
Lemma strip_space_word (w : str) :
  is_word w = true -> strip ([] ++ lit " " ++ w) = w.
Proof.
  intros H. unfold strip. cbn [app lit lstrip].
  change (isspace (N_of_ascii " ")) with true. cbn iota.
  rewrite (lstrip_starts w (word_starts w H)).
  unfold rstrip. rewrite (lstrip_starts (rev w) (word_ends w H)).
  apply rev_involutive.
Qed.

(** The candidate line of a later word. *)
Lemma strip_line_word (line w : str) :
  starts line = true -> is_word w = true ->
  strip (line ++ lit " " ++ w) = line ++ lit " " ++ w.
Proof.
  intros Hl Hw. apply strip_tight.
  - apply starts_app, Hl.
  - apply ends_app, ends_app, word_ends, Hw.
Qed.

Lemma join_cons (sep a : str) (l : list str) :
  l <> [] -> join sep (a :: l) = a ++ sep ++ join sep l.
Proof. destruct l; [contradiction|reflexivity]. Qed.

Lemma join_snoc (sep : str) (l : list str) (a : str) :
  l <> [] -> join sep (l ++ [a]) = join sep l ++ sep ++ a.
Proof.
  induction l as [|b l IH]; [contradiction|]. intros _.
  destruct l as [|c l].
  - reflexivity.
  - change ((b :: c :: l) ++ [a]) with (b :: ((c :: l) ++ [a])).
    rewrite join_cons by (destruct l; discriminate).
    rewrite IH by discriminate.
    rewrite (join_cons sep b (c :: l)) by discriminate.
    rewrite <- !app_assoc. reflexivity.
Qed.

Lemma join_starts (sep : str) (l : list str) :
  l <> [] -> Forall (fun w => is_word w = true) l -> starts (join sep l) = true.
Proof.
  destruct l as [|a l]; [contradiction|]. intros _ H.
  inversion H as [|? ? Ha _]; subst.
  destruct l; [apply word_starts, Ha|].
  rewrite join_cons by discriminate. apply starts_app, word_starts, Ha.
Qed.

Lemma join_ends (sep : str) (l : list str) :
  l <> [] -> Forall (fun w => is_word w = true) l -> ends (join sep l) = true.
Proof.
  induction l as [|a l IH]; [contradiction|]. intros _ H.
  inversion H as [|? ? Ha Hl]; subst.
  destruct l as [|b l]; [apply word_ends, Ha|].
  rewrite join_cons by discriminate.
  apply ends_app, ends_app, IH; [discriminate|exact Hl].
Qed.

(** *** The words of a text *)

Lemma split_from_words (s word : str) :
  forallb (fun c => negb (isspace c)) word = true ->
  Forall (fun w => is_word w = true) (split_from word s).
Proof.
  revert word. induction s as [|c s IH]; intros word Hw; cbn [split_from].
  - destruct word; [constructor|]. constructor; [exact Hw|constructor].
  - destruct (isspace c) eqn:Hc.
    + destruct word; [apply IH; reflexivity|].
      constructor; [exact Hw|apply IH; reflexivity].
    + apply IH. rewrite forallb_app, Hw. cbn. rewrite Hc. reflexivity.
Qed.

Lemma split_words (s : str) : Forall (fun w => is_word w = true) (split s).
Proof. apply split_from_words. reflexivity. Qed.

Lemma split_from_blank (pre s : str) :
  blank pre = true -> split_from [] (pre ++ s) = split_from [] s.
Proof.
  induction pre as [|c pre IH]; [reflexivity|]. cbn.
  intros H. apply andb_true_iff in H as [Hc Hpre]. rewrite Hc. auto.
Qed.

Lemma split_from_nonspace (w s word : str) :
  forallb (fun c => negb (isspace c)) w = true ->
  split_from word (w ++ s) = split_from (word ++ w) s.
Proof.
  revert word. induction w as [|c w IH]; intros word H.
  - rewrite app_nil_r. reflexivity.
  - cbn in H. apply andb_true_iff in H as [Hc Hw]. cbn [app split_from].
    apply negb_true_iff in Hc. rewrite Hc, IH by exact Hw.
    rewrite <- app_assoc. reflexivity.
Qed.

Lemma split_blank (s : str) : blank s = true -> split s = [].
Proof.
  intros H. unfold split. rewrite <- (app_nil_r s), split_from_blank; auto.
Qed.

Lemma split_pad_join (pre post : str) (ws : list str) :
  blank pre = true -> blank post = true ->
  Forall (fun w => is_word w = true) ws ->
  split (pre ++ join (lit " ") ws ++ post) = ws.
Proof.
  intros Hpre Hpost Hws. unfold split. rewrite split_from_blank by exact Hpre.
  clear pre Hpre. induction Hws as [|w ws Hw Hws IH].
  - cbn [join app]. rewrite <- (app_nil_r post), split_from_blank; auto.
  - destruct ws as [|v ws].
    + cbn [join].
      rewrite split_from_nonspace by (apply word_nonspace, Hw). cbn [app].
      destruct post as [|c post].
      * cbn. destruct w; [discriminate|reflexivity].
      * cbn in Hpost. apply andb_true_iff in Hpost as [Hc Hpost].
        cbn [split_from]. rewrite Hc.
        destruct w; [discriminate|]. f_equal.
        rewrite <- (app_nil_r post), split_from_blank; auto.
    + rewrite join_cons by discriminate. rewrite <- !app_assoc.
      rewrite split_from_nonspace by (apply word_nonspace, Hw). cbn [app lit].
      cbn [split_from].
      change (isspace (N_of_ascii " ")) with true. cbn iota.
      destruct w; [discriminate|]. f_equal. exact IH.
Qed.

Lemma strip_pad_join (pre post : str) (ws : list str) :
  blank pre = true -> blank post = true ->
  Forall (fun w => is_word w = true) ws ->
  strip (pre ++ join (lit " ") ws ++ post) = join (lit " ") ws.
Proof.
  intros Hpre Hpost Hws. unfold strip. rewrite lstrip_blank by exact Hpre.
  destruct ws as [|w ws].
  - cbn [join app]. rewrite (lstrip_all_blank post Hpost). reflexivity.
  - assert (Hs : starts (join (lit " ") (w :: ws)) = true)
      by (apply join_starts; [discriminate|exact Hws]).
    assert (He : ends (join (lit " ") (w :: ws)) = true)
      by (apply join_ends; [discriminate|exact Hws]).
    rewrite lstrip_starts by (apply starts_app, Hs).
    unfold rstrip. rewrite rev_app_distr, lstrip_blank
      by (rewrite blank_rev; exact Hpost).
    rewrite (lstrip_starts _ He). apply rev_involutive.
Qed.

(** ** Drawer.get_wrapped_text *)

Lemma removelast_in {A} (l : list A) (a : A) : In a (removelast l) -> In a l.
Proof.
  induction l as [|b l IH]; [auto|]. cbn [removelast].
  destruct l as [|c l]; [intros []|].
  intros [<-|H]; [left; reflexivity|right; apply IH, H].
Qed.

Lemma removelast_cons {A} (a b : A) (l : list A) :
  removelast (a :: b :: l) = a :: removelast (b :: l).
Proof. reflexivity. Qed.

Lemma lstrip_forall (P : char -> Prop) (s : str) : Forall P s -> Forall P (lstrip s).
Proof.
  induction 1 as [|c s Hc Hs IH]; [constructor|]. cbn.
  destruct (isspace c); [exact IH|constructor; assumption].
Qed.

Lemma strip_forall (P : char -> Prop) (s : str) : Forall P s -> Forall P (strip s).
Proof.
  intros H. unfold strip, rstrip.
  apply Forall_rev, lstrip_forall, Forall_rev, lstrip_forall, H.
Qed.

Lemma word_line_chars (w : str) :
  is_word w = true -> Forall (fun c => line_char c = true) w.
Proof.
  intros H. apply word_nonspace in H. rewrite forallb_forall in H.
  apply Forall_forall. intros c Hc. unfold line_char. rewrite (H c Hc). reflexivity.
Qed.

Lemma split_on_clean (sep : char) (s : str) :
  Forall (fun c => c <> sep) s -> split_on sep s = [s].
Proof.
  induction 1 as [|c s Hc Hs IH]; [reflexivity|]. cbn [split_on].
  apply N.eqb_neq in Hc. rewrite Hc, IH. reflexivity.
Qed.

Lemma split_on_app (sep : char) (a rest : str) :
  Forall (fun c => c <> sep) a ->
  split_on sep (a ++ sep :: rest) = a :: split_on sep rest.
Proof.
  induction 1 as [|c s Hc Hs IH]; cbn [app split_on].
  - rewrite N.eqb_refl. reflexivity.
  - apply N.eqb_neq in Hc. rewrite Hc, IH. reflexivity.
Qed.

Lemma split_on_join (sep : char) (lines : list str) :
  lines <> [] ->
  Forall (Forall (fun c => c <> sep)) lines ->
  split_on sep (join [sep] lines) = lines.
Proof.
  induction lines as [|a lines IH]; [contradiction|]. intros _ H.
  inversion H as [|? ? Ha Hl]; subst.
  destruct lines as [|b lines].
  - apply split_on_clean, Ha.
  - rewrite join_cons by discriminate. cbn [app].
    rewrite split_on_app by exact Ha. f_equal. apply IH; [discriminate|exact Hl].
Qed.

Section WrapFacts.

Variable getlength : str -> Q.
Variable width : Z.

Local Abbreviation fits := (fits getlength width).
Local Abbreviation wrap_step := (wrap_step getlength width).
Local Abbreviation wrapped_lines := (wrapped_lines getlength width).
Local Abbreviation get_wrapped_text := (get_wrapped_text getlength width).

Lemma fits_le (line : str) :
  fits line = true <-> (getlength line <= inject_Z width)%Q.
Proof. apply Qle_bool_iff. Qed.

Lemma fits_gt (line : str) :
  fits line = false <-> (inject_Z width < getlength line)%Q.
Proof.
  rewrite <- not_true_iff_false, fits_le. split.
  - apply Qnot_le_lt.
  - apply Qlt_not_le.
Qed.

(** *** The lines are checked, lone words, or the empty first line *)

(** [words] are the words of the text. *)
Variable words : list str.

Local Abbreviation checked := (checked getlength width words).
Local Abbreviation lines_ok := (lines_ok getlength width words).

Lemma wrap_step_ok (lines : list str) (word : str) :
  In word words -> lines_ok lines -> lines_ok (wrap_step lines word).
Proof.
  intros Hw (first & rest & -> & Hfirst & Hrest). unfold wrap_step.
  set (line := strip (last (first :: rest) [] ++ lit " " ++ word)).
  destruct (fits line) eqn:Hfit.
  - destruct rest as [|r rest].
    + exists line, []. split; [reflexivity|].
      split; [right; left; exact Hfit|constructor].
    + exists first, (removelast (r :: rest) ++ [line]).
      split; [reflexivity|]. split; [exact Hfirst|].
      apply Forall_app. split.
      * rewrite Forall_forall in *. intros l Hl. apply Hrest.
        apply removelast_in, Hl.
      * constructor; [left; exact Hfit|constructor].
  - exists first, (rest ++ [word]). split; [reflexivity|].
    split; [exact Hfirst|]. apply Forall_app. split; [exact Hrest|].
    constructor; [right; exact Hw|constructor].
Qed.

Lemma wrap_fold_ok (ws : list str) (lines : list str) :
  incl ws words -> lines_ok lines -> lines_ok (fold_left wrap_step ws lines).
Proof.
  revert lines. induction ws as [|w ws IH]; intros lines Hws Hok; [exact Hok|].
  cbn [fold_left]. apply IH.
  - intros v Hv. apply Hws. right. exact Hv.
  - apply wrap_step_ok; [apply Hws; left; reflexivity|exact Hok].
Qed.

(** *** The lines hold no line break *)

Lemma wrap_step_clean (lines : list str) (word : str) :
  is_word word = true -> clean lines -> clean (wrap_step lines word).
Proof.
  intros Hw [Hne Hall]. unfold wrap_step.
  match goal with |- context [if ?b then _ else _] => destruct b end.
  - split; [intros E; apply app_eq_nil in E as [_ E]; discriminate|].
    apply Forall_app. split.
    + rewrite Forall_forall in *. intros l Hl. apply Hall, removelast_in, Hl.
    + constructor; [|constructor]. apply strip_forall.
      apply Forall_app. split.
      * destruct (exists_last Hne) as (l' & a & ->). rewrite last_last.
        apply Forall_app in Hall as [_ Ha]. inversion Ha; assumption.
      * apply Forall_app. split; [|apply word_line_chars, Hw].
        constructor; [reflexivity|constructor].
  - split; [intros E; apply app_eq_nil in E as [_ E]; discriminate|].
    apply Forall_app. split; [exact Hall|].
    constructor; [apply word_line_chars, Hw|constructor].
Qed.

Lemma wrap_fold_clean (ws : list str) (lines : list str) :
  Forall (fun w => is_word w = true) ws -> clean lines ->
  clean (fold_left wrap_step ws lines).
Proof.
  intros Hws. revert lines. induction Hws as [|w ws Hw Hws IH]; intros lines Hc.
  - exact Hc.
  - cbn [fold_left]. apply IH, wrap_step_clean; assumption.
Qed.

End WrapFacts.

Lemma wrapped_lines_of_text (getlength : str -> Q) (width : Z) (text : str) :
  split_on 10%N (get_wrapped_text getlength width text) =
  wrapped_lines getlength width text.
Proof.
  unfold get_wrapped_text.
  destruct (wrap_fold_clean getlength width (split text) [[]] (split_words text))
    as [Hne Hall].
  { split; [discriminate|]. constructor; constructor. }
  apply split_on_join; [exact Hne|].
  fold (wrapped_lines getlength width text) in Hall.
  rewrite Forall_forall in *. intros l Hl. specialize (Hall l Hl).
  rewrite Forall_forall in *. intros c Hc E. specialize (Hall c Hc).
  subst c. discriminate.
Qed.

Section WrapResults.

Variable getlength : str -> Q.
Variable width : Z.

Local Abbreviation fits := (fits getlength width).
Local Abbreviation step := (wrap_step getlength width).
Local Abbreviation lines_of := (wrapped_lines getlength width).

Lemma checked_within (words : list str) (line : str) :
  Forall (fun w => is_word w = true) words ->
  checked getlength width words line -> within getlength width words line.
Proof.
  intros Hws [Hfit|Hin].
  - left. apply fits_le, Hfit.
  - destruct (fits line) eqn:Hfit.
    + left. apply fits_le, Hfit.
    + right. rewrite Forall_forall in Hws.
      split; [apply Hws, Hin|]. split; [exact Hin|]. apply fits_gt, Hfit.
Qed.

Lemma wrapped_lines_ok (text : str) :
  lines_ok getlength width (split text) (lines_of text).
Proof.
  apply wrap_fold_ok; [apply incl_refl|].
  exists [], []. split; [reflexivity|]. split; [left; reflexivity|constructor].
Qed.

(** *** A first word wider than the target *)

Lemma wrap_step_empty_head (a : str) (l : list str) (word : str) :
  exists a' l', step ([] :: a :: l) word = [] :: a' :: l'.
Proof.
  unfold wrap_step.
  match goal with |- context [if ?b then _ else _] => destruct b end.
  - rewrite removelast_cons. cbn [app].
    destruct (removelast (a :: l)) as [|b r]; cbn [app]; eauto.
  - cbn [app]. eauto.
Qed.

Lemma wrap_fold_empty_head (ws : list str) (a : str) (l : list str) :
  exists a' l', fold_left step ws ([] :: a :: l) = [] :: a' :: l'.
Proof.
  revert a l. induction ws as [|w ws IH]; intros a l; cbn [fold_left].
  - eauto.
  - destruct (wrap_step_empty_head a l w) as (a' & l' & ->). apply IH.
Qed.

Lemma wrapped_lines_overlong_first (text w : str) (ws : list str) :
  split text = w :: ws -> fits w = false ->
  exists second rest, lines_of text = [] :: second :: rest.
Proof.
  intros Hsplit Hfit.
  assert (Hw : is_word w = true).
  { pose proof (split_words text) as H. rewrite Hsplit in H.
    inversion H; assumption. }
  unfold wrapped_lines. rewrite Hsplit. cbn [fold_left].
  unfold wrap_step at 2. cbn [last].
  rewrite (strip_space_word w Hw), Hfit. cbn [app].
  apply wrap_fold_empty_head.
Qed.

(** *** A text whose candidate lines all fit *)

Lemma wrap_fold_single (ws done : list str) :
  Forall (fun w => is_word w = true) (done ++ ws) ->
  (forall k, 0 < k <= length (done ++ ws) ->
             fits (join (lit " ") (firstn k (done ++ ws))) = true) ->
  fold_left step ws [join (lit " ") done] = [join (lit " ") (done ++ ws)].
Proof.
  revert done. induction ws as [|w ws IH]; intros done Hwords Hfit.
  - rewrite app_nil_r. reflexivity.
  - cbn [fold_left].
    assert (Hdone : Forall (fun w => is_word w = true) done)
      by (apply Forall_app in Hwords; tauto).
    assert (Hw : is_word w = true).
    { apply Forall_app in Hwords as [_ H]. inversion H; assumption. }
    assert (Hline : strip (last [join (lit " ") done] [] ++ lit " " ++ w) =
                    join (lit " ") (done ++ [w])).
    { cbn [last]. destruct done as [|d done].
      - apply strip_space_word, Hw.
      - rewrite join_snoc by discriminate.
        apply strip_line_word; [|exact Hw].
        apply join_starts; [discriminate|exact Hdone]. }
    assert (Hcand : fits (join (lit " ") (done ++ [w])) = true).
    { specialize (Hfit (length (done ++ [w]))).
      replace (done ++ w :: ws) with ((done ++ [w]) ++ ws) in Hfit
        by (rewrite <- app_assoc; reflexivity).
      rewrite firstn_app, firstn_all, Nat.sub_diag, firstn_0, app_nil_r in Hfit.
      apply Hfit. rewrite !length_app. cbn. lia. }
    unfold wrap_step at 2. rewrite Hline, Hcand. cbn [removelast app].
    replace (done ++ w :: ws) with ((done ++ [w]) ++ ws) in *
      by (rewrite <- app_assoc; reflexivity).
    apply IH; assumption.
Qed.

Lemma wrapped_lines_single (text : str) :
  (forall k, 0 < k <= length (split text) ->
             fits (join (lit " ") (firstn k (split text))) = true) ->
  lines_of text = [join (lit " ") (split text)].
Proof.
  intros Hfit. apply (wrap_fold_single (split text) []).
  - apply split_words.
  - exact Hfit.
Qed.

End WrapResults.

Lemma join_firstn_prefix (sep : str) (ws : list str) (k : nat) :
  0 < k -> exists t, join sep ws = join sep (firstn k ws) ++ t.
Proof.
  revert k. induction ws as [|w ws IH]; intros k Hk.
  - exists []. rewrite firstn_nil. reflexivity.
  - destruct k as [|k]; [lia|]. cbn [firstn].
    destruct ws as [|v ws].
    + exists []. rewrite firstn_nil, app_nil_r. reflexivity.
    + destruct k as [|k].
      * exists (sep ++ join sep (v :: ws)). reflexivity.
      * destruct (IH (S k)) as [t Ht]; [lia|].
        exists t. rewrite join_cons by discriminate.
        rewrite (join_cons sep w (firstn (S k) (v :: ws))) by discriminate.
        rewrite Ht, <- !app_assoc. reflexivity.
Qed.

Lemma monotone_candidates (getlength : str -> Q) (width : Z) (ws : list str) :
  monotone getlength ->
  (getlength (join (lit " ") ws) <= inject_Z width)%Q ->
  forall k, 0 < k <= length ws ->
            fits getlength width (join (lit " ") (firstn k ws)) = true.
Proof.
  intros Hmono Hfit k [Hk _]. apply fits_le.
  destruct (join_firstn_prefix (lit " ") ws k Hk) as [t Ht].
  apply Qle_trans with (getlength (join (lit " ") ws)); [|exact Hfit].
  rewrite Ht. apply Hmono.
Qed.

(** C6, as the spec states it, fails: the loop starts from one empty line
    whose width it never measures.  With ten pixels per character and a
    target width of -1 the text without words gives the single line [""],
    of width 0, which is neither within the target nor a word. *)
Lemma wrap_empty_line_exceeds_width :
  ~ (forall (getlength : str -> Q) (width : Z) (text line : str),
        In line (wrapped_lines getlength width text) ->
        (getlength line <= inject_Z width)%Q \/
        (is_word line = true /\ (inject_Z width < getlength line)%Q)).
Proof.
  intros H.
  destruct (H ten_per_char (-1)%Z [] [] (or_introl eq_refl)) as [Hle|[Hw _]].
  - apply Qle_bool_iff in Hle. discriminate.
  - discriminate.
Qed.

(** C6, amended: the lines [get_wrapped_text] joins are a first line and
    the lines after it; every line after the first has a measured width
    within the target or is a single word of the text that is itself wider
    than the target, and so has the first line unless it is empty.  When
    the empty string is within the target, this is so for every line.  The
    lines are those the returned string has between its line breaks. *)
Theorem wrapped_lines_within_width :
  forall (getlength : str -> Q) (width : Z) (text : str),
    (exists first rest,
        wrapped_lines getlength width text = first :: rest /\
        (first = [] \/ within getlength width (split text) first) /\
        Forall (within getlength width (split text)) rest) /\
    ((getlength [] <= inject_Z width)%Q ->
     Forall (within getlength width (split text))
            (wrapped_lines getlength width text)) /\
    split_on 10%N (get_wrapped_text getlength width text) =
    wrapped_lines getlength width text.
Proof.
  intros getlength width text.
  destruct (wrapped_lines_ok getlength width text)
    as (first & rest & Hlines & Hfirst & Hrest).
  assert (Hrest' : Forall (within getlength width (split text)) rest).
  { rewrite Forall_forall in *. intros l Hl.
    apply checked_within; [apply split_words|apply Hrest, Hl]. }
  assert (Hfirst' : first = [] \/ within getlength width (split text) first).
  { destruct Hfirst as [->|Hc]; [left; reflexivity|right].
    apply checked_within; [apply split_words|exact Hc]. }
  split; [|split].
  - exists first, rest. auto.
  - intros Hempty. rewrite Hlines. constructor; [|exact Hrest'].
    destruct Hfirst' as [->|Hw]; [left; exact Hempty|exact Hw].
  - apply wrapped_lines_of_text.
Qed.

(** C7, as the spec states it, fails: the words are joined again by single
    spaces.  With ten pixels per character and a target width of 1000 the
    text ["a  b"], of width 40, is wrapped to the one line ["a b"]. *)
Lemma wrap_short_text_not_stripped_input :
  ~ (forall (getlength : str -> Q) (width : Z) (text : str),
        (getlength text <= inject_Z width)%Q ->
        wrapped_lines getlength width text = [strip text]).
Proof.
  intros H.
  specialize (H ten_per_char 1000%Z (lit "a  b")).
  assert (Hfit : (ten_per_char (lit "a  b") <= inject_Z 1000)%Q)
    by (apply Qle_bool_iff; reflexivity).
  specialize (H Hfit). vm_compute in H. discriminate.
Qed.

(** C7, amended: when every candidate line, the first [k] words of the text
    joined by single spaces, has a measured width within the target,
    [get_wrapped_text] returns exactly one line, the words of the text
    joined by single spaces.  A measurement that does not shrink when text
    is appended makes every candidate fit as soon as the joined words do;
    and for a text whose words are separated by one space each, with any
    white space before and after, the joined words are the stripped text. *)
Theorem wrap_short_text :
  forall (getlength : str -> Q) (width : Z) (text : str),
    (forall k, 0 < k <= length (split text) ->
       (getlength (join (lit " ") (firstn k (split text))) <= inject_Z width)%Q) ->
    wrapped_lines getlength width text = [join (lit " ") (split text)] /\
    get_wrapped_text getlength width text = join (lit " ") (split text) /\
    (forall pre post ws,
        blank pre = true -> blank post = true ->
        Forall (fun w => is_word w = true) ws ->
        text = pre ++ join (lit " ") ws ++ post ->
        get_wrapped_text getlength width text = strip text).
Proof.
  intros getlength width text Hfit.
  assert (Hlines : wrapped_lines getlength width text =
                   [join (lit " ") (split text)]).
  { apply wrapped_lines_single. intros k Hk. apply fits_le, Hfit, Hk. }
  assert (Htext : get_wrapped_text getlength width text =
                  join (lit " ") (split text)).
  { unfold get_wrapped_text. rewrite Hlines. reflexivity. }
  split; [exact Hlines|]. split; [exact Htext|].
  intros pre post ws Hpre Hpost Hws ->.
  rewrite Htext, split_pad_join, strip_pad_join by assumption. reflexivity.
Qed.

Lemma wrap_short_text_witness :
  wrapped_lines ten_per_char 1000 (lit " ab  cd ") = [lit "ab cd"] /\
  get_wrapped_text ten_per_char 1000 (lit " ab  cd ") = lit "ab cd".
Proof.
  destruct (wrap_short_text ten_per_char 1000 (lit " ab  cd ")) as (H1 & H2 & _).
  - intros k Hk. apply Qle_bool_iff.
    change (length (split (lit " ab  cd "))) with 2 in Hk.
    destruct k as [|[|[|k]]]; [lia|reflexivity|reflexivity|lia].
  - split; [exact H1|exact H2].
Defined.

(** With a monotone measurement, a text of words separated by one space
    each is wrapped to its stripped self as soon as its joined words fit. *)
Lemma wrap_monotone_short_text (getlength : str -> Q) (width : Z)
    (pre post : str) (ws : list str) :
  monotone getlength ->
  blank pre = true -> blank post = true ->
  Forall (fun w => is_word w = true) ws ->
  (getlength (join (lit " ") ws) <= inject_Z width)%Q ->
  wrapped_lines getlength width (pre ++ join (lit " ") ws ++ post) =
  [strip (pre ++ join (lit " ") ws ++ post)].
Proof.
  intros Hmono Hpre Hpost Hws Hfit.
  rewrite wrapped_lines_single.
  - rewrite split_pad_join, strip_pad_join by assumption. reflexivity.
  - rewrite split_pad_join by assumption. intros k Hk.
    apply monotone_candidates; assumption.
Qed.

(** C10: when the first word of the text is wider than the target, the
    first line [get_wrapped_text] returns is empty, so the returned string
    starts with a line break; when the text has no word, as an empty text
    or one of white space only, the returned string is the one empty
    line. *)
Theorem wrap_edge_cases :
  forall (getlength : str -> Q) (width : Z) (text : str),
    (forall w ws,
        split text = w :: ws ->
        (inject_Z width < getlength w)%Q ->
        exists second rest,
          wrapped_lines getlength width text = [] :: second :: rest /\
          get_wrapped_text getlength width text =
          10%N :: join [10%N] (second :: rest)) /\
    (split text = [] ->
     wrapped_lines getlength width text = [[]] /\
     get_wrapped_text getlength width text = []) /\
    (blank text = true -> split text = []).
Proof.
  intros getlength width text. split; [|split].
  - intros w ws Hsplit Hgt.
    destruct (wrapped_lines_overlong_first getlength width text w ws Hsplit)
      as (second & rest & Hlines); [apply fits_gt, Hgt|].
    exists second, rest. split; [exact Hlines|].
    unfold get_wrapped_text. rewrite Hlines. reflexivity.
  - intros Hsplit. unfold get_wrapped_text, wrapped_lines. rewrite Hsplit.
    split; reflexivity.
  - apply split_blank.
Qed.

(** ** Pager.run and the errors of a page *)

Lemma Pager_loop_app (fs : filesystem) (pre rest : list str) (pages : list Page) :
  Pager_loop fs (pre ++ rest) pages =
  match Pager_loop fs pre pages with
  | (pages', None) => Pager_loop fs rest pages'
  | stopped => stopped
  end.
Proof.
  revert pages. induction pre as [|image pre IH]; intros pages; cbn [app Pager_loop].
  - reflexivity.
  - destruct (Page_run fs image) as [e|page]; [reflexivity|apply IH].
Qed.

Lemma for_each_raises {A S} (body : S -> A -> result S) (l : list A) (i : A) :
  In i l -> (forall s, exists e, body s i = inl e) ->
  forall st, exists e, for_each body l st = inl e.
Proof.
  intros Hin Hfail. induction l as [|a l IH]; [contradiction|]. intros st.
  cbn [for_each]. destruct Hin as [->|Hin].
  - destruct (Hfail st) as [e ->]. exists e. reflexivity.
  - destruct (body st a) as [e|st']; [exists e; reflexivity|].
    cbn [bind]. apply IH, Hin.
Qed.

Lemma load_boxes_short_scores (d : ocr_data) (texts : list str)
    (scores : list float) :
  rec_texts d = Some texts -> rec_scores d = Some scores ->
  length scores < length texts ->
  exists e, load_boxes d = inl e.
Proof.
  intros Ht Hs Hlen. unfold load_boxes. rewrite Ht. cbn [getkey bind ret].
  apply for_each_raises with (i := length scores).
  - apply in_seq. lia.
  - intros boxes. exists IndexError. unfold load_boxes_step.
    rewrite Hs. cbn [getkey bind ret]. unfold getitem.
    rewrite (proj2 (nth_error_None scores (length scores)) (le_n _)).
    reflexivity.
Qed.

(** C5, as the spec states it, fails: [Pager.run] catches nothing.  In a
    directory that holds the record of [good.png] only, the batch of
    [bad.png] and [good.png] stops at [bad.png]: the page of [good.png]
    loads on its own and is not among the pages of the batch. *)
Lemma pager_stops_at_bad_page :
  ~ (forall (fs : filesystem) (images : list str) (image : str) (page : Page),
        In image images ->
        Page_run fs image = inr page ->
        In page (fst (Pager_run fs images))).
Proof.
  intros H.
  specialize (H only_good [lit "bad.png"; lit "good.png"] (lit "good.png")
                {| image := lit "good.png"; data := record_of [];
                   page_boxes := []; groups := [] |}
                (or_intror (or_introl eq_refl)) eq_refl).
  vm_compute in H. exact H.
Qed.

(** C5, amended: an error raised while a page is loaded leaves [Pager.run]:
    the loop ends at that page, [self.pages] holds the pages before it and
    no later page is processed.  Loading raises [FileNotFoundError] when
    the record is absent, [KeyError] when it has no [rec_texts], and an
    error when it has fewer scores than texts; a record with more scores
    and boxes than texts, or with no texts and no other array, loads. *)
Theorem pager_error_stops_batch :
  forall fs : filesystem,
    (forall pre image post pages e,
        Pager_run fs pre = (pages, None) ->
        Page_run fs image = inl e ->
        Pager_run fs (pre ++ image :: post) = (pages, Some e)) /\
    (forall image,
        fs (json_path image) = None ->
        Page_run fs image = inl (FileNotFoundError (json_path image))) /\
    (forall image d,
        fs (json_path image) = Some d -> rec_texts d = None ->
        Page_run fs image = inl (KeyError (lit "rec_texts"))) /\
    (forall image d texts scores,
        fs (json_path image) = Some d ->
        rec_texts d = Some texts -> rec_scores d = Some scores ->
        length scores < length texts ->
        exists e, Page_run fs image = inl e) /\
    load_boxes {| rec_texts := Some [lit "a"];
                  rec_scores := Some [1%float; 1%float];
                  rec_boxes := Some [[0; 0; 1; 1]%Z; []] |} =
      inr [mkBox 0 1 0 1 (lit "a") 1%float] /\
    load_boxes {| rec_texts := Some []; rec_scores := None;
                  rec_boxes := None |} = inr [].
Proof.
  intros fs. split; [|split; [|split; [|split; [|split]]]].
  - intros pre image post pages e Hpre Himage. unfold Pager_run in *.
    rewrite Pager_loop_app, Hpre. cbn [Pager_loop]. rewrite Himage. reflexivity.
  - intros image Habsent. unfold Page_run, load_data. rewrite Habsent. reflexivity.
  - intros image d Hd Ht. unfold Page_run, load_data, load_boxes.
    rewrite Hd. cbn [bind ret]. rewrite Ht. reflexivity.
  - intros image d texts scores Hd Ht Hs Hlen.
    destruct (load_boxes_short_scores d texts scores Ht Hs Hlen) as [e He].
    exists e. unfold Page_run, load_data. rewrite Hd. cbn [bind ret].
    rewrite He. reflexivity.
  - reflexivity.
  - reflexivity.
Qed.

Lemma pager_error_stops_batch_witness :
  exists page,
    Pager_run only_good [lit "good.png"; lit "bad.png"; lit "good.png"] =
    ([page], Some (FileNotFoundError (lit "output/bad_res.json"))).
Proof.
  eexists.
  apply (proj1 (pager_error_stops_batch only_good)
               [lit "good.png"] (lit "bad.png") [lit "good.png"]).
  - reflexivity.
  - reflexivity.
Defined.

(** * Further properties of the code *)

(** ** Box *)

(** X1: a box overlaps itself exactly when neither its width nor its height
    is negative. *)
Theorem overlaps_self (b : Box) :
  overlaps b b = true <-> (0 <= w b /\ 0 <= h b)%Z.
Proof. rewrite overlaps_spec. lia. Qed.

(** X2: for boxes of non-negative width and height, [Box.overlaps] holds
    exactly when the two rectangles have a point in common. *)
Theorem overlaps_common_point (a b : Box) :
  (0 <= w a)%Z -> (0 <= h a)%Z -> (0 <= w b)%Z -> (0 <= h b)%Z ->
  (overlaps a b = true <-> exists px py, inside a px py /\ inside b px py).
Proof.
  intros Hwa Hha Hwb Hhb. rewrite overlaps_spec. unfold inside. split.
  - intros H. exists (Z.max (x a) (x b)), (Z.max (y a) (y b)). lia.
  - intros (px & py & Ha & Hb). lia.
Qed.

Lemma overlaps_common_point_witness :
  overlaps (mkBox 0 10 0 10 [] 1%float) (mkBox 10 5 10 5 [] 1%float) = true <->
  exists px py,
    inside (mkBox 0 10 0 10 [] 1%float) px py /\
    inside (mkBox 10 5 10 5 [] 1%float) px py.
Proof.
  apply (overlaps_common_point (mkBox 0 10 0 10 [] 1%float)
                               (mkBox 10 5 10 5 [] 1%float));
    cbn; lia.
Defined.

(** X3: [Box.__init__] on an array of at least four numbers keeps the first
    corner as [x], [y] and stores the second one as a width and a height
    from which it is recovered: [x + w] is [box[2]] and [y + h] is [box[3]];
    on a shorter array it raises [IndexError]. *)
Theorem Box_init_corners (t : str) (box : list Z) (s : float) :
  (forall x1 y1 x2 y2 more,
      box = x1 :: y1 :: x2 :: y2 :: more ->
      exists b,
        Box_init t box s = inr b /\
        x b = x1 /\ y b = y1 /\
        (x b + w b = x2)%Z /\ (y b + h b = y2)%Z /\
        text b = t /\ score b = s) /\
  (length box < 4 -> Box_init t box s = inl IndexError).
Proof.
  split.
  - intros x1 y1 x2 y2 more ->. eexists. split; [reflexivity|]. cbn.
    repeat split; lia.
  - intros Hlen.
    destruct box as [|x1 [|y1 [|x2 [|y2 more]]]]; cbn in Hlen; try lia;
      reflexivity.
Qed.

(** ** Page.load_boxes beyond well-formed records *)

Lemma load_boxes_step_aligned (d : ocr_data) (scores : list float)
    (texts : list str) (i : nat) (det : detection) (acc : list Box) :
  rec_texts d = Some texts ->
  rec_scores d = Some scores ->
  nth_error texts i = Some (det_text det) ->
  nth_error scores i = Some (det_score det) ->
  (retained det = true ->
   exists bs, rec_boxes d = Some bs /\
              nth_error bs i = Some (box_array (det_box det))) ->
  load_boxes_step d acc i =
  ret (if retained det then acc ++ [fragment_of det] else acc).
Proof.
  intros Ht Hs Hti Hsi Hb. unfold load_boxes_step, retained in *.
  rewrite Hs, Ht. cbn [getkey bind ret]. unfold getitem.
  rewrite Hsi. cbn [bind ret].
  destruct (float_ge (det_score det) SCORE_THRESHOLD); [|reflexivity].
  destruct (Hb eq_refl) as (bs & Hbs & Hbi).
  rewrite Hti, Hbs. cbn [getkey bind ret]. rewrite Hbi. cbn [bind ret].
  rewrite (Box_init_array (det_text det)). reflexivity.
Qed.

Lemma load_boxes_loop_aligned (d : ocr_data) (scores : list float)
    (pre suf : list detection) (acc : list Box) :
  rec_texts d = Some (map det_text (pre ++ suf)) ->
  rec_scores d = Some scores ->
  (forall i det,
      nth_error (pre ++ suf) i = Some det ->
      nth_error scores i = Some (det_score det) /\
      (retained det = true ->
       exists bs, rec_boxes d = Some bs /\
                  nth_error bs i = Some (box_array (det_box det)))) ->
  for_each (load_boxes_step d) (seq (length pre) (length suf)) acc =
  ret (acc ++ map fragment_of (filter retained suf)).
Proof.
  revert pre acc. induction suf as [|det suf IH]; intros pre acc Ht Hs Hal.
  - cbn. rewrite app_nil_r. reflexivity.
  - cbn [length seq for_each].
    assert (Hnth : nth_error (pre ++ det :: suf) (length pre) = Some det)
      by (rewrite nth_error_app2, Nat.sub_diag by lia; reflexivity).
    destruct (Hal _ _ Hnth) as [Hsi Hbi].
    rewrite (load_boxes_step_aligned d scores _ (length pre) det acc Ht Hs);
      [|rewrite nth_error_map, Hnth; reflexivity|exact Hsi|exact Hbi].
    cbn [bind ret].
    replace (pre ++ det :: suf) with ((pre ++ [det]) ++ suf) in *
      by (rewrite <- app_assoc; reflexivity).
    replace (S (length pre)) with (length (pre ++ [det]))
      by (rewrite length_app; cbn; lia).
    rewrite (IH (pre ++ [det]) _ Ht Hs Hal). cbn [filter].
    destruct (retained det); cbn [map].
    + rewrite <- app_assoc. reflexivity.
    + reflexivity.
Qed.

(** X4: [Page.load_boxes] reads one score per text and reads a box only for
    a detection it keeps.  When the record has a score for every text and a
    box array for every detection whose score reaches the threshold, it
    returns the kept detections as fragments, in order, whatever else the
    record holds: scores and boxes beyond the texts, and the boxes of the
    dropped detections, even missing, are never read. *)
Theorem load_boxes_reads_what_it_keeps (d : ocr_data) (dets : list detection)
    (scores : list float) :
  rec_texts d = Some (map det_text dets) ->
  rec_scores d = Some scores ->
  (forall i det,
      nth_error dets i = Some det ->
      nth_error scores i = Some (det_score det) /\
      (retained det = true ->
       exists bs, rec_boxes d = Some bs /\
                  nth_error bs i = Some (box_array (det_box det)))) ->
  load_boxes d = inr (map fragment_of (filter retained dets)).
Proof.
  intros Ht Hs Hal. unfold load_boxes. rewrite Ht. cbn [getkey bind ret].
  rewrite length_map.
  apply (load_boxes_loop_aligned d scores [] dets [] Ht Hs Hal).
Qed.

Lemma load_boxes_reads_what_it_keeps_witness :
  load_boxes {| rec_texts := Some [lit "a"; lit "b"];
                rec_scores := Some [0.5%float; 1%float; 1%float];
                rec_boxes := Some [[]; [1; 2; 4; 6]%Z; [7]%Z] |} =
  inr [mkBox 1 3 2 4 (lit "b") 1%float].
Proof.
  apply (load_boxes_reads_what_it_keeps
           {| rec_texts := Some [lit "a"; lit "b"];
              rec_scores := Some [0.5%float; 1%float; 1%float];
              rec_boxes := Some [[]; [1; 2; 4; 6]%Z; [7]%Z] |}
           [mkDet (lit "a") (0, 0, 0, 0)%Z 0.5%float;
            mkDet (lit "b") (1, 2, 4, 6)%Z 1%float]
           [0.5%float; 1%float; 1%float]).
  - reflexivity.
  - reflexivity.
  - intros [|[|i]] det H; cbn in H; try discriminate.
    + injection H as <-. split; [reflexivity|]. intros H. discriminate.
    + injection H as <-. split; [reflexivity|]. intros _.
      eexists. split; reflexivity.
    + destruct i; discriminate.
Defined.

Lemma Box_init_short (t : str) (box : list Z) (s : float) :
  length box < 4 -> Box_init t box s = inl IndexError.
Proof.
  intros Hlen.
  destruct box as [|x1 [|y1 [|x2 [|y2 more]]]]; cbn in Hlen; try lia;
    reflexivity.
Qed.

(** X5: the errors of [Page.load_boxes] on the first detection.  Without a
    text nothing is read and no box is returned; with a text and no
    [rec_scores] it raises [KeyError] on that key; when the first score
    reaches the threshold, a missing [rec_boxes] raises [KeyError], an empty
    one [IndexError], and a first box array shorter than four numbers
    [IndexError]. *)
Theorem load_boxes_first_errors (d : ocr_data) :
  (rec_texts d = Some [] -> load_boxes d = inr []) /\
  (forall t texts,
      rec_texts d = Some (t :: texts) -> rec_scores d = None ->
      load_boxes d = inl (KeyError (lit "rec_scores"))) /\
  (forall t texts s scores,
      rec_texts d = Some (t :: texts) -> rec_scores d = Some (s :: scores) ->
      float_ge s SCORE_THRESHOLD = true ->
      (rec_boxes d = None -> load_boxes d = inl (KeyError (lit "rec_boxes"))) /\
      (rec_boxes d = Some [] -> load_boxes d = inl IndexError) /\
      (forall b bs, rec_boxes d = Some (b :: bs) -> length b < 4 ->
                    load_boxes d = inl IndexError)).
Proof.
  split; [|split].
  - intros Ht. unfold load_boxes. rewrite Ht. reflexivity.
  - intros t texts Ht Hs. unfold load_boxes. rewrite Ht.
    cbn [getkey bind ret length seq for_each]. unfold load_boxes_step.
    rewrite Hs. reflexivity.
  - intros t texts s scores Ht Hs Hge.
    assert (Hstep : forall e,
               (forall acc, load_boxes_step d acc 0 = inl e) ->
               load_boxes d = inl e).
    { intros e He. unfold load_boxes. rewrite Ht.
      cbn [getkey bind ret length seq for_each]. rewrite He. reflexivity. }
    split; [|split].
    + intros Hb. apply Hstep. intros acc. unfold load_boxes_step.
      rewrite Hs, Ht, Hb. cbn [getkey getitem nth_error bind ret].
      rewrite Hge. reflexivity.
    + intros Hb. apply Hstep. intros acc. unfold load_boxes_step.
      rewrite Hs, Ht, Hb. cbn [getkey getitem nth_error bind ret].
      rewrite Hge. reflexivity.
    + intros b bs Hb Hlen. apply Hstep. intros acc. unfold load_boxes_step.
      rewrite Hs, Ht, Hb. cbn [getkey getitem nth_error bind ret].
      rewrite Hge. cbn [bind ret].
      rewrite (Box_init_short t b s Hlen). reflexivity.
Qed.

(** ** The groups of a page *)

Lemma NoDup_app_disjoint {A} (l1 l2 : list A) (a : A) :
  NoDup (l1 ++ l2) -> In a l1 -> In a l2 -> False.
Proof.
  induction l1 as [|b l1 IH]; intros Hnd H1 H2; [contradiction|].
  cbn [app] in Hnd. inversion Hnd as [|? ? Hnotin Hnd']; subst.
  destruct H1 as [->|H1].
  - apply Hnotin, in_or_app. right. exact H2.
  - apply IH; assumption.
Qed.

Lemma concat_positions_disjoint {A} (ls : list (list A)) :
  NoDup (concat ls) ->
  forall i j l1 l2 a,
    nth_error ls i = Some l1 -> nth_error ls j = Some l2 -> i <> j ->
    In a l1 -> In a l2 -> False.
Proof.
  induction ls as [|l ls IH]; intros Hnd i j l1 l2 a Hi Hj Hij H1 H2.
  - destruct i; discriminate.
  - cbn [concat] in Hnd.
    assert (Hhere : forall k l', nth_error ls k = Some l' -> In a l' -> In a l ->
                                 False).
    { intros k l' Hk Hl' Hl. apply (NoDup_app_disjoint l (concat ls) a Hnd Hl).
      apply in_concat. exists l'. split; [|exact Hl'].
      apply nth_error_In with k. exact Hk. }
    destruct i as [|i], j as [|j]; cbn [nth_error] in Hi, Hj.
    + contradiction.
    + injection Hi as <-. eapply Hhere; eauto.
    + injection Hj as <-. eapply Hhere; eauto.
    + apply (IH (NoDup_app_remove_l _ _ Hnd) i j l1 l2 a); auto.
Qed.

Lemma make_groups_facts (bs : list Box) :
  exists gs,
    make_groups bs = Some gs /\
    Forall (component (objects bs)) gs /\
    NoDup (concat (map boxes gs)) /\
    (forall o, In o (objects bs) <-> In o (concat (map boxes gs))).
Proof.
  destruct (make_groups_trace_grouped bs)
    as (gs & processed & Hrun & (G1 & G2 & G3 & G4 & G5) & Hall).
  exists gs. split; [unfold make_groups; rewrite Hrun; reflexivity|].
  split; [exact G5|]. rewrite <- G1. split.
  - apply NoDup_map_inv with (f := ident). exact G3.
  - intros o. split; [apply Hall|apply G2].
Qed.

(** X6: no group [Page.make_groups] returns is empty, its first member is
    the fragment the group was created from, no fragment occurs twice in a
    group, and there are at most as many groups as fragments. *)
Theorem make_groups_nonempty (bs : list Box) :
  exists gs,
    make_groups bs = Some gs /\
    Forall (fun g => exists seed added,
                boxes g = seed :: added /\ In seed (objects bs) /\
                NoDup (boxes g)) gs /\
    length gs <= length bs.
Proof.
  destruct (make_groups_facts bs) as (gs & Hrun & Hcomp & Hnd & Hin).
  exists gs. split; [exact Hrun|]. split.
  - rewrite Forall_forall in *. intros g Hg.
    destruct (Hcomp g Hg) as (seed & added & -> & Hseed & _).
    exists seed, added. rewrite region_boxes. split; [reflexivity|].
    split; [exact Hseed|].
    assert (Hsub : In (seed :: added) (map boxes gs)).
    { apply in_map_iff. exists (finish_init (region seed added)).
      split; [apply region_boxes|exact Hg]. }
    clear - Hnd Hsub. induction (map boxes gs) as [|l ls IH]; [contradiction|].
    cbn [concat] in Hnd. destruct Hsub as [->|Hsub].
    + apply NoDup_app_remove_r in Hnd. exact Hnd.
    + apply IH; [apply NoDup_app_remove_l in Hnd; exact Hnd|exact Hsub].
  - assert (Hlen : length (concat (map boxes gs)) = length bs).
    { rewrite <- (objects_length bs). apply Permutation_length.
      apply NoDup_Permutation; [exact Hnd| |intros o; symmetry; apply Hin].
      apply NoDup_map_inv with (f := ident). apply objects_NoDup. }
    rewrite <- Hlen. clear - Hcomp.
    induction Hcomp as [|g gs (seed & added & -> & _) _ IH]; [apply le_n|].
    cbn [map concat length]. rewrite length_app, region_boxes. cbn [length]. lia.
Qed.

(** X7: fragments of two different groups of a page never overlap. *)
Theorem make_groups_separates (bs : list Box) :
  exists gs,
    make_groups bs = Some gs /\
    forall i j g1 g2 a b,
      nth_error gs i = Some g1 -> nth_error gs j = Some g2 -> i <> j ->
      In a (boxes g1) -> In b (boxes g2) ->
      overlaps (fields a) (fields b) = false.
Proof.
  destruct (make_groups_facts bs) as (gs & Hrun & Hcomp & Hnd & Hin).
  exists gs. split; [exact Hrun|].
  intros i j g1 g2 a b Hi Hj Hij Ha Hb.
  destruct (overlaps (fields a) (fields b)) eqn:Hov; [exfalso|reflexivity].
  rewrite Forall_forall in Hcomp.
  destruct (Hcomp g1 (nth_error_In _ _ Hi)) as (seed & added & _ & _ & Hc).
  assert (Hbin : In b (objects bs)).
  { apply Hin, in_concat. exists (boxes g2). split; [|exact Hb].
    apply in_map, (nth_error_In _ _ Hj). }
  assert (Hb1 : In b (boxes g1)).
  { apply Hc. apply connected_step with a; [apply Hc, Ha|exact Hbin|exact Hov]. }
  apply (concat_positions_disjoint (map boxes gs) Hnd i j (boxes g1) (boxes g2) b);
    auto using map_nth_error.
Qed.

Lemma connected_isolated (all_boxes : list obj) (s a : obj) :
  NoDup (map ident all_boxes) ->
  (forall b, In b all_boxes -> ident b <> ident a ->
             overlaps (fields a) (fields b) = false) ->
  connected all_boxes s a -> s = a.
Proof.
  intros Hnd Hiso Hsa.
  assert (Ha : In a all_boxes) by apply (connected_in _ _ _ Hsa).
  assert (Hgen : forall c, connected all_boxes s c -> c = a -> s = a).
  { induction 1 as [Hs|b c Hsb IH Hc Hov]; intros ->; [reflexivity|].
    apply IH.
    pose proof (connected_in _ _ _ Hsb) as [_ Hb].
    destruct (Nat.eq_dec (ident b) (ident a)) as [E|N].
    - apply (ident_inj all_boxes b a Hnd Hb Ha E).
    - rewrite overlaps_sym, (Hiso b Hb N) in Hov. discriminate. }
  apply (Hgen a Hsa eq_refl).
Qed.

(** X8: a fragment that overlaps no other fragment of the page is alone in
    its group. *)
Theorem make_groups_isolated (bs : list Box) :
  exists gs,
    make_groups bs = Some gs /\
    forall a,
      In a (objects bs) ->
      (forall b, In b (objects bs) -> ident b <> ident a ->
                 overlaps (fields a) (fields b) = false) ->
      exists g, In g gs /\ boxes g = [a].
Proof.
  destruct (make_groups_facts bs) as (gs & Hrun & Hcomp & Hnd & Hin).
  exists gs. split; [exact Hrun|]. intros a Ha Hiso.
  apply Hin, in_concat in Ha as (l & Hl & Hal).
  apply in_map_iff in Hl as (g & <- & Hg).
  exists g. split; [exact Hg|].
  rewrite Forall_forall in Hcomp.
  destruct (Hcomp g Hg) as (seed & added & -> & Hseed & Hc).
  rewrite region_boxes in *.
  pose proof (connected_isolated (objects bs) seed a (objects_NoDup bs) Hiso
                (proj1 (Hc a) Hal)) as ->.
  destruct added as [|o added]; [reflexivity|exfalso].
  assert (Ho : o = a).
  { apply (connected_isolated (objects bs) o a (objects_NoDup bs) Hiso).
    apply connected_sym, Hc. right. left. reflexivity. }
  subst o.
  assert (Hsub : In (a :: a :: added) (map boxes gs)).
  { apply in_map_iff. exists (finish_init (region a (a :: added))).
    split; [apply region_boxes|exact Hg]. }
  clear - Hnd Hsub. induction (map boxes gs) as [|l ls IH]; [contradiction|].
  cbn [concat] in Hnd. destruct Hsub as [->|Hsub].
  - apply NoDup_app_remove_r in Hnd. inversion Hnd as [|? ? Hnotin _]; subst.
    apply Hnotin. left. reflexivity.
  - apply IH; [apply NoDup_app_remove_l in Hnd; exact Hnd|exact Hsub].
Qed.

(** ** The text and the rectangle of a group *)

Lemma lstrip_shape (s : str) : lstrip s = [] \/ starts (lstrip s) = true.
Proof.
  induction s as [|c s IH]; [left; reflexivity|]. cbn [lstrip].
  destruct (isspace c) eqn:Hc; [exact IH|].
  right. cbn. rewrite Hc. reflexivity.
Qed.

Lemma lstrip_snoc (a : str) (c : char) :
  isspace c = false -> lstrip (a ++ [c]) = lstrip a ++ [c].
Proof.
  intros Hc. induction a as [|d a IH]; cbn [app lstrip].
  - rewrite Hc. reflexivity.
  - destruct (isspace d); [exact IH|reflexivity].
Qed.

Lemma strip_trimmed (s : str) : trimmed (strip s).
Proof.
  unfold strip. destruct (lstrip_shape s) as [->|Hs]; [left; reflexivity|].
  destruct (lstrip s) as [|c t]; [left; reflexivity|right].
  cbn in Hs. apply negb_true_iff in Hs.
  unfold rstrip, ends. cbn [rev]. rewrite (lstrip_snoc (rev t) c Hs).
  rewrite rev_involutive, rev_app_distr. cbn [rev app]. split.
  - cbn. rewrite Hs. reflexivity.
  - destruct (lstrip_shape (rev t)) as [->|Ht].
    + cbn. rewrite Hs. reflexivity.
    + apply starts_app, Ht.
Qed.

Lemma trimmed_app (a b : str) : trimmed a -> trimmed b -> trimmed (a ++ b).
Proof.
  intros [->|[Ha1 Ha2]] Hb; [exact Hb|].
  destruct Hb as [->|[Hb1 Hb2]].
  - rewrite app_nil_r. right. split; assumption.
  - right. split; [apply starts_app, Ha1|apply ends_app, Hb2].
Qed.

Lemma trimmed_concat (l : list str) : Forall trimmed l -> trimmed (concat l).
Proof.
  induction 1 as [|a l Ha Hl IH]; [left; reflexivity|].
  cbn [concat]. apply trimmed_app; assumption.
Qed.

Lemma trimmed_strip (s : str) : trimmed s -> strip s = s.
Proof.
  intros [->|[Hs He]]; [reflexivity|apply strip_tight; assumption].
Qed.

(** X9: the text [finish_init] assembles for a group has no white space at
    either end, so stripping it again changes nothing; an inner member text
    of white space only contributes nothing. *)
Theorem full_text_trimmed (seed : obj) (added : list obj) :
  strip (full_text (finish_init (region seed added))) =
  full_text (finish_init (region seed added)) /\
  (forall m, In m (seed :: added) -> blank (text (fields m)) = true ->
             stripped_text m = []).
Proof.
  split.
  - apply trimmed_strip. rewrite region_full_text. apply trimmed_concat.
    apply Forall_forall. intros t Ht. apply in_map_iff in Ht as (m & <- & _).
    apply strip_trimmed.
  - intros m _ Hb. unfold stripped_text, strip.
    rewrite (lstrip_all_blank _ Hb). reflexivity.
Qed.

(** X10: the rectangle of a group is at least as wide and as high as each
    of its members. *)
Theorem full_box_covers_sizes (seed : obj) (added : list obj) (m : obj) :
  In m (seed :: added) ->
  let '(_, _, fw, fh) := full_box (finish_init (region seed added)) in
  (w (fields m) <= fw /\ h (fields m) <= fh)%Z.
Proof.
  intros Hm. pose proof (region_full_box seed added) as H.
  destruct (full_box (finish_init (region seed added))) as [[[fx fy] fw] fh].
  destruct H as (Hall & _). specialize (Hall m Hm). lia.
Qed.

Lemma full_box_covers_sizes_witness :
  let '(_, _, fw, fh) :=
    full_box (finish_init (region (0, mkBox 0 10 0 10 [] 1%float)
                                  [(1, mkBox 5 10 5 20 [] 1%float)])) in
  (10 <= fw /\ 20 <= fh)%Z.
Proof.
  apply (full_box_covers_sizes (0, mkBox 0 10 0 10 [] 1%float)
           [(1, mkBox 5 10 5 20 [] 1%float)] (1, mkBox 5 10 5 20 [] 1%float)).
  right. left. reflexivity.
Defined.

(** ** The lines of get_wrapped_text *)

Lemma split_join_words (ws : list str) :
  Forall (fun w => is_word w = true) ws -> split (join (lit " ") ws) = ws.
Proof.
  intros H. pose proof (split_pad_join [] [] ws eq_refl eq_refl H) as E.
  cbn [app] in E. rewrite app_nil_r in E. exact E.
Qed.

Lemma split_from_space_app (a b : str) (c : char) (word : str) :
  isspace c = true ->
  split_from word (a ++ c :: b) = split_from word a ++ split b.
Proof.
  intros Hc. revert word. induction a as [|d a IH]; intros word; cbn [app split_from].
  - rewrite Hc. destruct word; reflexivity.
  - destruct (isspace d).
    + destruct word; [apply IH|]. rewrite IH. reflexivity.
    + apply IH.
Qed.

Lemma split_join_lines (lines : list str) :
  split (join [10%N] lines) = concat (map split lines).
Proof.
  induction lines as [|a lines IH]; [reflexivity|].
  destruct lines as [|b lines].
  - cbn. rewrite app_nil_r. reflexivity.
  - rewrite join_cons by discriminate. cbn [app map concat].
    unfold split at 1. rewrite split_from_space_app by reflexivity.
    rewrite IH. reflexivity.
Qed.

Lemma normal_words (ws : list str) :
  Forall (fun w => is_word w = true) ws -> normal (join (lit " ") ws).
Proof. intros H. unfold normal. rewrite split_join_words; auto. Qed.

Lemma wrap_candidate (line w : str) :
  normal line -> is_word w = true ->
  strip (line ++ lit " " ++ w) = join (lit " ") (split line ++ [w]).
Proof.
  intros Hn Hw. pose proof (split_words line) as Hws.
  destruct (split line) as [|v ws] eqn:Hsplit.
  - unfold normal in Hn. rewrite Hsplit in Hn. cbn in Hn. subst line.
    apply strip_space_word, Hw.
  - unfold normal in Hn. rewrite Hsplit in Hn.
    rewrite join_snoc by discriminate. rewrite Hn.
    apply strip_line_word; [|exact Hw]. rewrite <- Hn.
    apply join_starts; [discriminate|exact Hws].
Qed.

Lemma split_candidate (line w : str) :
  is_word w = true ->
  split (join (lit " ") (split line ++ [w])) = split line ++ [w].
Proof.
  intros Hw. apply split_join_words. apply Forall_app. split.
  - apply split_words.
  - constructor; [exact Hw|constructor].
Qed.

Lemma split_word (w : str) : is_word w = true -> split w = [w].
Proof.
  intros Hw. apply (split_join_words [w]). constructor; [exact Hw|constructor].
Qed.

Section WrapShape.

Variable getlength : str -> Q.
Variable width : Z.

Lemma wrap_step_cons (first r : str) (rest : list str) (w : str) :
  wrap_step getlength width (first :: r :: rest) w =
  first :: wrap_step getlength width (r :: rest) w.
Proof.
  unfold wrap_step. change (last (first :: r :: rest) []) with (last (r :: rest) []).
  match goal with |- context [if ?b then _ else _] => destruct b end;
    reflexivity.
Qed.

Lemma wrap_step_shape (w : str) (rest : list str) :
  is_word w = true ->
  forall first,
    Forall normal (first :: rest) ->
    greedy getlength width first rest ->
    exists first' rest',
      wrap_step getlength width (first :: rest) w = first' :: rest' /\
      Forall normal (first' :: rest') /\
      greedy getlength width first' rest' /\
      (exists more, split first' = split first ++ more) /\
      concat (map split (first' :: rest')) =
        concat (map split (first :: rest)) ++ [w] /\
      length rest' <= S (length rest).
Proof.
  intros Hw. induction rest as [|r rest IH]; intros first Hn Hg.
  - inversion Hn as [|? ? Hfirst _]; subst.
    unfold wrap_step. cbn [last removelast app].
    rewrite (wrap_candidate first w Hfirst Hw).
    destruct (fits getlength width (join (lit " ") (split first ++ [w])))
      eqn:Hfit.
    + exists (join (lit " ") (split first ++ [w])), [].
      split; [reflexivity|]. split.
      { constructor; [|constructor]. apply normal_words, Forall_app.
        split; [apply split_words|constructor; [exact Hw|constructor]]. }
      split; [exact I|]. rewrite (split_candidate first w Hw). split.
      { exists [w]. reflexivity. }
      split; [|cbn; lia].
      cbn [map concat]. rewrite (split_candidate first w Hw), !app_nil_r.
      reflexivity.
    + exists first, [w]. split; [reflexivity|]. split.
      { constructor; [exact Hfirst|]. constructor; [|constructor].
        apply (normal_words [w]). constructor; [exact Hw|constructor]. }
      split.
      { cbn [greedy]. split; [|exact I]. exists w, [].
        split; [apply split_word, Hw|].
        rewrite (wrap_candidate first w Hfirst Hw). exact Hfit. }
      split; [exists []; rewrite app_nil_r; reflexivity|].
      split; [|cbn; lia].
      cbn [map concat]. rewrite (split_word w Hw), !app_nil_r. reflexivity.
  - rewrite wrap_step_cons.
    inversion Hn as [|? ? Hfirst Hrest]; subst.
    destruct Hg as [(v & vs & Hv & Hbreak) Hg].
    destruct (IH r Hrest Hg)
      as (r' & rest' & Hstep & Hn' & Hg' & [more Hmore] & Hcat & Hlen).
    exists first, (r' :: rest'). rewrite Hstep.
    split; [reflexivity|]. split; [constructor; assumption|]. split.
    { cbn [greedy]. split; [|exact Hg'].
      exists v, (vs ++ more). split; [|exact Hbreak].
      rewrite Hmore, Hv. reflexivity. }
    split; [exists []; rewrite app_nil_r; reflexivity|]. split.
    + change (concat (map split (first :: r' :: rest')))
        with (split first ++ concat (map split (r' :: rest'))).
      rewrite Hcat. cbn [map concat]. rewrite <- !app_assoc. reflexivity.
    + cbn [length]. lia.
Qed.

Lemma wrap_fold_shape (ws : list str) :
  Forall (fun w => is_word w = true) ws ->
  forall first rest,
    Forall normal (first :: rest) ->
    greedy getlength width first rest ->
    exists first' rest',
      fold_left (wrap_step getlength width) ws (first :: rest) =
        first' :: rest' /\
      Forall normal (first' :: rest') /\
      greedy getlength width first' rest' /\
      concat (map split (first' :: rest')) =
        concat (map split (first :: rest)) ++ ws /\
      length rest' <= length rest + length ws.
Proof.
  induction 1 as [|w ws Hw Hws IH]; intros first rest Hn Hg.
  - exists first, rest. cbn [fold_left length].
    rewrite app_nil_r, Nat.add_0_r. auto.
  - cbn [fold_left].
    destruct (wrap_step_shape w rest Hw first Hn Hg)
      as (f1 & r1 & -> & Hn1 & Hg1 & _ & Hcat1 & Hlen1).
    destruct (IH f1 r1 Hn1 Hg1) as (f2 & r2 & Hrun & Hn2 & Hg2 & Hcat2 & Hlen2).
    exists f2, r2. split; [exact Hrun|]. split; [exact Hn2|].
    split; [exact Hg2|]. split.
    + rewrite Hcat2, Hcat1, <- app_assoc. reflexivity.
    + cbn [length]. lia.
Qed.

Lemma wrapped_lines_shape (text : str) :
  exists first rest,
    wrapped_lines getlength width text = first :: rest /\
    Forall normal (first :: rest) /\
    greedy getlength width first rest /\
    concat (map split (first :: rest)) = split text /\
    length rest <= length (split text).
Proof.
  destruct (wrap_fold_shape (split text) (split_words text) [] [])
    as (first & rest & Hrun & Hn & Hg & Hcat & Hlen).
  - constructor; [reflexivity|constructor].
  - exact I.
  - exists first, rest. auto.
Qed.

End WrapShape.

(** X11: wrapping keeps the words: the words of the string
    [get_wrapped_text] returns are the words of the text, in their order,
    whatever the measurement and the width. *)
Theorem wrap_preserves_words (getlength : str -> Q) (width : Z) (text : str) :
  split (get_wrapped_text getlength width text) = split text.
Proof.
  unfold get_wrapped_text. rewrite split_join_lines.
  destruct (wrapped_lines_shape getlength width text)
    as (first & rest & -> & _ & _ & Hcat & _).
  exact Hcat.
Qed.

Lemma wrapped_lines_words (getlength : str -> Q) (width : Z) (t1 t2 : str) :
  split t1 = split t2 ->
  wrapped_lines getlength width t1 = wrapped_lines getlength width t2.
Proof. intros H. unfold wrapped_lines. rewrite H. reflexivity. Qed.

(** X12: wrapping is idempotent: wrapping the returned string again, with
    the same measurement and width, returns it unchanged. *)
Theorem wrap_idempotent (getlength : str -> Q) (width : Z) (text : str) :
  get_wrapped_text getlength width (get_wrapped_text getlength width text) =
  get_wrapped_text getlength width text.
Proof.
  unfold get_wrapped_text at 1 3. f_equal. apply wrapped_lines_words.
  unfold get_wrapped_text. rewrite split_join_lines.
  destruct (wrapped_lines_shape getlength width text)
    as (first & rest & -> & _ & _ & Hcat & _).
  exact Hcat.
Qed.

Lemma normal_trimmed (line : str) : normal line -> strip line = line.
Proof.
  intros Hn. pose proof (split_words line) as Hws. unfold normal in Hn.
  destruct (split line) as [|w ws]; [subst line; reflexivity|].
  rewrite <- Hn. apply strip_tight.
  - apply join_starts; [discriminate|exact Hws].
  - apply join_ends; [discriminate|exact Hws].
Qed.

(** X13: the shape of the lines.  There is at least one line and at most
    one more than there are words; every line is its own words joined by
    single spaces, so it has no white space at either end; and no line after
    the first is empty. *)
Theorem wrapped_lines_form (getlength : str -> Q) (width : Z) (text : str) :
  exists first rest,
    wrapped_lines getlength width text = first :: rest /\
    length rest <= length (split text) /\
    Forall (fun line => join (lit " ") (split line) = line /\
                        strip line = line) (first :: rest) /\
    Forall (fun line => line <> []) rest.
Proof.
  destruct (wrapped_lines_shape getlength width text)
    as (first & rest & Hrun & Hn & Hg & _ & Hlen).
  exists first, rest. split; [exact Hrun|]. split; [exact Hlen|]. split.
  - rewrite Forall_forall in *. intros line Hl.
    split; [apply Hn, Hl|apply normal_trimmed, Hn, Hl].
  - clear - Hg. revert first Hg.
    induction rest as [|next rest IH]; intros first Hg; [constructor|].
    destruct Hg as [(w & ws & Hsplit & _) Hg].
    constructor; [|apply (IH next Hg)].
    intros ->. discriminate.
Qed.

Lemma greedy_nth (getlength : str -> Q) (width : Z) (rest : list str) :
  forall first i prev next,
    greedy getlength width first rest ->
    nth_error (first :: rest) i = Some prev ->
    nth_error (first :: rest) (S i) = Some next ->
    exists w ws, split next = w :: ws /\
                 fits getlength width (strip (prev ++ lit " " ++ w)) = false.
Proof.
  induction rest as [|r rest IH]; intros first i prev next Hg Hi Hsi.
  - destruct i; discriminate.
  - destruct Hg as [Hbreak Hg]. destruct i as [|i].
    + cbn in Hi, Hsi. injection Hi as <-. injection Hsi as <-. exact Hbreak.
    + apply (IH r i prev next Hg); assumption.
Qed.

(** X14: the wrapping is greedy: a line is broken only where the next word
    did not fit.  For two consecutive lines, the first one followed by a
    space and the first word of the second one is wider than the target. *)
Theorem wrap_breaks_only_when_needed (getlength : str -> Q) (width : Z)
    (text : str) (i : nat) (prev next : str) :
  nth_error (wrapped_lines getlength width text) i = Some prev ->
  nth_error (wrapped_lines getlength width text) (S i) = Some next ->
  exists w ws,
    split next = w :: ws /\
    (inject_Z width < getlength (join (lit " ") (split prev ++ [w])))%Q.
Proof.
  destruct (wrapped_lines_shape getlength width text)
    as (first & rest & -> & Hn & Hg & _ & _).
  intros Hi Hsi.
  destruct (greedy_nth getlength width rest first i prev next Hg Hi Hsi)
    as (w & ws & Hsplit & Hfit).
  exists w, ws. split; [exact Hsplit|]. apply fits_gt.
  rewrite <- wrap_candidate; [exact Hfit| |].
  - rewrite Forall_forall in Hn. apply Hn. apply nth_error_In with i. exact Hi.
  - pose proof (split_words next) as Hws. rewrite Hsplit in Hws.
    inversion Hws; assumption.
Qed.

Lemma wrap_breaks_only_when_needed_witness :
  exists w ws,
    split (lit "ccc") = w :: ws /\
    (inject_Z 50 < ten_per_char (join (lit " ") (split (lit "aa bb") ++ [w])))%Q.
Proof.
  apply (wrap_breaks_only_when_needed ten_per_char 50 (lit "aa bb ccc") 0
           (lit "aa bb") (lit "ccc")); reflexivity.
Defined.

(** ** Page.run and Pager.run *)

Lemma Page_run_image (fs : filesystem) (im : str) (page : Page) :
  Page_run fs im = inr page -> image page = im.
Proof.
  unfold Page_run. destruct (load_data fs im) as [e|d]; [discriminate|].
  cbn [bind]. destruct (load_boxes d) as [e|bs]; [discriminate|].
  cbn [bind]. destruct (make_groups bs); [|discriminate].
  intros [= <-]. reflexivity.
Qed.

(** X15: [Page.run] on a record of parallel arrays returns a page whose
    fragments are the detections with a score of at least 0.75, in order,
    and whose groups hold exactly these fragments, each one once. *)
Theorem Page_run_well_formed (fs : filesystem) (im : str)
    (dets : list detection) :
  fs (json_path im) = Some (record_of dets) ->
  exists page,
    Page_run fs im = inr page /\
    image page = im /\
    page_boxes page = map fragment_of (filter retained dets) /\
    Permutation (map fields (concat (map boxes (groups page))))
                (page_boxes page).
Proof.
  intros Hfs. unfold Page_run, load_data. rewrite Hfs. cbn [bind ret].
  rewrite load_boxes_record_of. cbn [bind ret].
  destruct (make_groups_facts (map fragment_of (filter retained dets)))
    as (gs & -> & _ & Hnd & Hin).
  eexists. split; [reflexivity|]. cbn [image page_boxes groups].
  split; [reflexivity|]. split; [reflexivity|].
  assert (Hperm : Permutation (concat (map boxes gs))
                              (objects (map fragment_of (filter retained dets)))).
  { apply NoDup_Permutation; [exact Hnd| |].
    - apply NoDup_map_inv with (f := ident). apply objects_NoDup.
    - intros o. symmetry. apply Hin. }
  apply (Permutation_map fields) in Hperm.
  rewrite objects_fields in Hperm. exact Hperm.
Qed.

Lemma Page_run_well_formed_witness :
  exists page,
    Page_run one_page (lit "scans/page.png") = inr page /\
    image page = lit "scans/page.png" /\
    page_boxes page =
      [mkBox 0 10 0 10 (lit "A") 1%float; mkBox 5 10 5 10 (lit "B") 0.75%float] /\
    Permutation (map fields (concat (map boxes (groups page))))
                (page_boxes page).
Proof.
  apply (Page_run_well_formed one_page (lit "scans/page.png")
           [mkDet (lit "A") (0, 0, 10, 10)%Z 1%float;
            mkDet (lit "x") (50, 50, 60, 60)%Z 0.5%float;
            mkDet (lit "B") (5, 5, 15, 15)%Z 0.75%float]).
  reflexivity.
Defined.

Lemma Pager_loop_prefix (fs : filesystem) (images : list str) :
  forall acc,
  exists pages,
    fst (Pager_loop fs images acc) = acc ++ pages /\
    Forall2 (fun im page => Page_run fs im = inr page)
            (firstn (length pages) images) pages /\
    match snd (Pager_loop fs images acc) with
    | None => length pages = length images
    | Some e =>
        exists im, nth_error images (length pages) = Some im /\
                   Page_run fs im = inl e
    end.
Proof.
  induction images as [|im images IH]; intros acc; cbn [Pager_loop].
  - exists []. cbn. rewrite app_nil_r. repeat split. constructor.
  - destruct (Page_run fs im) as [e|page] eqn:Hrun.
    + exists []. cbn. rewrite app_nil_r. split; [reflexivity|].
      split; [constructor|]. exists im. auto.
    + destruct (IH (acc ++ [page])) as (pages & H1 & H2 & H3).
      exists (page :: pages). rewrite H1, <- app_assoc.
      split; [reflexivity|]. split.
      * cbn [length firstn]. constructor; assumption.
      * cbn [length nth_error]. destruct (snd (Pager_loop fs images _)).
        -- exact H3.
        -- lia.
Qed.

(** X16: [Pager.run] returns the pages of the images that come before the
    first image whose page fails to load, in order, each the page
    [Page.run] returns for its image; the error, if there is one, is the
    error of that first failing image, and without error every image has
    its page. *)
Theorem Pager_run_loaded_prefix (fs : filesystem) (images : list str) :
  let pages := fst (Pager_run fs images) in
  Forall2 (fun im page => Page_run fs im = inr page /\ image page = im)
          (firstn (length pages) images) pages /\
  match snd (Pager_run fs images) with
  | None => length pages = length images
  | Some e =>
      exists im, nth_error images (length pages) = Some im /\
                 Page_run fs im = inl e
  end.
Proof.
  destruct (Pager_loop_prefix fs images []) as (pages & H1 & H2 & H3).
  unfold Pager_run. cbn [app] in H1. cbn zeta. rewrite H1.
  split; [|exact H3].
  clear - H2. induction H2 as [|im page ims pages Hrun _ IH]; constructor.
  - split; [exact Hrun|apply (Page_run_image fs im page Hrun)].
  - exact IH.
Qed.

(** ** Translator.run *)

Section TranslatorFacts.

Context {engine : Type}.
Variable translate : engine -> str -> engine * str.

Lemma translate_groups_asks (gs : list BoxGroup) :
  forall e,
    fst (translate_groups translate e gs) =
      fst (ask_all translate e (map full_text gs)) /\
    map translation (snd (translate_groups translate e gs)) =
      snd (ask_all translate e (map full_text gs)) /\
    Forall2 (fun g g' => boxes g' = boxes g /\ full_text g' = full_text g /\
                         full_box g' = full_box g)
            gs (snd (translate_groups translate e gs)).
Proof.
  induction gs as [|g gs IH]; intros e; cbn [translate_groups ask_all map].
  - repeat split. constructor.
  - destruct (translate e (full_text g)) as [e1 t].
    destruct (IH e1) as (H1 & H2 & H3).
    destruct (translate_groups translate e1 gs) as [e2 gs2].
    destruct (ask_all translate e1 (map full_text gs)) as [e2' answers].
    cbn [fst snd map] in *. subst. repeat split.
    constructor; [|exact H3]. repeat split.
Qed.

Lemma ask_all_app (a b : list str) (e : engine) :
  ask_all translate e (a ++ b) =
  let '(e1, xs) := ask_all translate e a in
  let '(e2, ys) := ask_all translate e1 b in
  (e2, xs ++ ys).
Proof.
  revert e. induction a as [|t a IH]; intros e; cbn [app ask_all].
  - destruct (ask_all translate e b). reflexivity.
  - destruct (translate e t) as [e1 x]. rewrite IH.
    destruct (ask_all translate e1 a) as [e2 xs].
    destruct (ask_all translate e2 b) as [e3 ys]. reflexivity.
Qed.

(** X17: [Translator.run] asks the service for the text of every group
    once, page after page and group after group, and stores each answer
    in its group; it changes nothing else: the pages keep their images
    and fragments, the groups their members, texts and rectangles.  It
    prints one line for each page. *)
Theorem Translator_run_asks_in_order (pages : list Page) (e : engine) :
  let '(e', lines, pages') := Translator_run translate e pages in
  let texts := flat_map (fun p => map full_text (groups p)) pages in
  e' = fst (ask_all translate e texts) /\
  flat_map (fun p => map translation (groups p)) pages' =
    snd (ask_all translate e texts) /\
  Forall2 (fun p p' =>
             image p' = image p /\ page_boxes p' = page_boxes p /\
             data p' = data p /\
             Forall2 (fun g g' => boxes g' = boxes g /\
                                  full_text g' = full_text g /\
                                  full_box g' = full_box g)
                     (groups p) (groups p'))
          pages pages' /\
  lines = map (fun p => lit "Translating image: '" ++ image p ++ lit "'") pages.
Proof.
  revert e. induction pages as [|p pages IH]; intros e;
    cbn [Translator_run flat_map map].
  - cbn. repeat split. constructor.
  - destruct (translate_groups_asks (groups p) e) as (G1 & G2 & G3).
    destruct (translate_groups translate e (groups p)) as [e1 gs].
    specialize (IH e1).
    destruct (Translator_run translate e1 pages) as [[e2 lines] pages2].
    cbn zeta in *. destruct IH as (H1 & H2 & H3 & H4).
    rewrite ask_all_app. cbn [fst snd] in G1, G2, G3.
    destruct (ask_all translate e (map full_text (groups p))) as [e1' xs].
    cbn [fst snd] in G1, G2. subst e1' xs.
    destruct (ask_all translate e1 _) as [e2' ys].
    cbn [fst snd] in *. subst e2 ys lines.
    cbn [groups set_groups image page_boxes data].
    repeat split. constructor; [|exact H3]. repeat split. exact G3.
Qed.

End TranslatorFacts.

(** ** Drawer.run *)

Lemma filter_flat_map {A B} (f : B -> bool) (g : A -> list B) (l : list A) :
  filter f (flat_map g l) = flat_map (fun a => filter f (g a)) l.
Proof.
  induction l as [|a l IH]; [reflexivity|].
  cbn [flat_map]. rewrite filter_app, IH. reflexivity.
Qed.

Lemma draw_group_saves (getlength : str -> Q) (is_debug : bool) (page : Page)
    (g : BoxGroup) :
  filter is_save (draw_group getlength is_debug page g) =
  [ImageSave (jpg_path (image page)) (lit "JPEG")].
Proof.
  unfold draw_group. rewrite !filter_app.
  assert (H1 : filter is_save (fill_old_text g) = []).
  { unfold fill_old_text. induction (boxes g); [reflexivity|exact IHl]. }
  assert (H2 : filter is_save (debug_draw is_debug g) = []).
  { unfold debug_draw. destruct is_debug; [|reflexivity].
    destruct (full_box g) as [[[b0 b1] b2] b3]. reflexivity. }
  assert (H3 : filter is_save (draw_translation getlength g) = []).
  { unfold draw_translation. destruct (full_box g) as [[[b0 b1] b2] b3].
    reflexivity. }
  rewrite H1, H2, H3. reflexivity.
Qed.

(** X18: [Drawer.run] saves the image of a page once for each of its
    groups, always as JPEG at [output/<stem>.jpg], and never saves a page
    that has no group. *)
Theorem Drawer_run_saves (getlength : str -> Q) (is_debug : bool)
    (pages : list Page) :
  filter is_save (Drawer_run getlength is_debug pages) =
  flat_map (fun page =>
              repeat (ImageSave (jpg_path (image page)) (lit "JPEG"))
                     (length (groups page)))
           pages.
Proof.
  unfold Drawer_run. rewrite filter_app, app_nil_r, filter_flat_map.
  induction pages as [|page pages IH]; [reflexivity|].
  cbn [flat_map]. rewrite IH. f_equal.
  unfold draw_page. cbn [app filter is_save]. rewrite filter_flat_map.
  induction (groups page) as [|g gs IHg]; [reflexivity|].
  cbn [flat_map length repeat]. rewrite draw_group_saves, IHg. reflexivity.
Qed.

(** X19: for a group as the clustering builds it, every rectangle
    [Drawer.run] draws, the white ones over the members and the red outline
    of debug mode, lies within the rectangle of the group; the translation
    is drawn at its top left corner and its words are the words of the
    translation. *)
Theorem draw_group_within_rectangle (getlength : str -> Q) (is_debug : bool)
    (page : Page) (seed : obj) (added : list obj) (t : str) :
  let g := set_translation (finish_init (region seed added)) t in
  Forall (drawn_within (full_box g)) (draw_group getlength is_debug page g) /\
  (forall px py content fill,
      In (MultilineText px py content fill)
         (draw_group getlength is_debug page g) ->
      (px, py) = (fst (fst (fst (full_box g))), snd (fst (fst (full_box g)))) /\
      split content = split t).
Proof.
  cbn zeta. unfold draw_group, fill_old_text, debug_draw, draw_translation.
  cbn [boxes full_box translation set_translation].
  pose proof (region_full_box seed added) as Hbb. rewrite region_boxes.
  destruct (full_box (finish_init (region seed added))) as [[[fx fy] fw] fh].
  destruct Hbb as (Hall & _). split.
  - apply Forall_app. split.
    + apply Forall_forall. intros e He. apply in_map_iff in He as (m & <- & Hm).
      specialize (Hall m Hm). cbn. lia.
    + apply Forall_app. split.
      * destruct is_debug; cbn; [|constructor].
        constructor; [cbn; lia|constructor].
      * repeat constructor.
  - intros px py content fill Hin.
    apply in_app_or in Hin as [Hin|Hin].
    { apply in_map_iff in Hin as (m & Hm & _). discriminate. }
    apply in_app_or in Hin as [Hin|Hin].
    { destruct is_debug; cbn in Hin; [|contradiction].
      destruct Hin as [Hin|[]]. discriminate. }
    cbn in Hin. destruct Hin as [Hin|[Hin|[]]]; [|discriminate].
    injection Hin as <- <- <- <-. split; [reflexivity|].
    unfold get_wrapped_text. rewrite split_join_lines.
    destruct (wrapped_lines_shape getlength fw t)
      as (first & rest & -> & _ & _ & Hcat & _).
    exact Hcat.
Qed.

(** ** The paths under output/ *)

Lemma split_on_nonempty (sep : char) (s : str) : split_on sep s <> [].
Proof.
  induction s as [|c s IH]; cbn [split_on]; [discriminate|].
  destruct (c =? sep)%N; [discriminate|].
  destruct (split_on sep s); [contradiction|discriminate].
Qed.

Lemma split_on_sep_app (sep : char) (a b : str) :
  split_on sep (a ++ sep :: b) = split_on sep a ++ split_on sep b.
Proof.
  induction a as [|c a IH]; cbn [app split_on].
  - rewrite N.eqb_refl. reflexivity.
  - destruct (c =? sep)%N; [rewrite IH; reflexivity|].
    rewrite IH. pose proof (split_on_nonempty sep a) as Hne.
    destruct (split_on sep a); [contradiction|reflexivity].
Qed.

Lemma rfind_last (c : char) (base ext : str) :
  Forall (fun d => d <> c) ext ->
  rfind c (base ++ c :: ext) = Some (length base).
Proof.
  intros Hext.
  assert (Hnone : rfind c ext = None).
  { induction Hext as [|d ext Hd _ IH]; [reflexivity|]. cbn [rfind].
    rewrite IH. apply N.eqb_neq in Hd. rewrite Hd. reflexivity. }
  induction base as [|a base IH]; cbn [app rfind length].
  - rewrite Hnone, N.eqb_refl. reflexivity.
  - rewrite IH. reflexivity.
Qed.

Lemma str_eqb_false (a b : str) : a <> b -> str_eqb a b = false.
Proof.
  intros H. unfold str_eqb. destruct (list_eq_dec N.eq_dec a b); [contradiction|].
  reflexivity.
Qed.

Lemma path_name_last (dir name : str) :
  (dir = [] \/ exists d, dir = d ++ lit "/") ->
  name <> [] -> name <> lit "." ->
  Forall (fun c => c <> 47%N) name ->
  path_name (dir ++ name) = name.
Proof.
  intros Hdir Hne Hdot Hclean. unfold path_name.
  assert (Hkeep : filter (fun c => negb (str_eqb c [] || str_eqb c (lit ".")))
                         [name] = [name]).
  { cbn [filter]. rewrite (str_eqb_false name [] Hne).
    rewrite (str_eqb_false name (lit ".") Hdot). reflexivity. }
  destruct Hdir as [->|[d ->]].
  - cbn [app]. rewrite (split_on_clean 47%N name Hclean), Hkeep. reflexivity.
  - change (lit "/") with [47%N]. rewrite <- app_assoc. cbn [app].
    rewrite split_on_sep_app, filter_app.
    rewrite (split_on_clean 47%N name Hclean), Hkeep. apply last_last.
Qed.

(** X20: the files of an image.  For an image named [base.ext] in any
    directory, with a base that is not empty and an extension without dot,
    the record is read from [output/base_res.json] and the rendered page is
    saved to [output/base.jpg]: neither the directory nor the extension of
    the image takes part, so images of the same base name share both
    files. *)
Theorem output_paths (dir base ext : str) :
  (dir = [] \/ exists d, dir = d ++ lit "/") ->
  base <> [] ->
  Forall (fun c => c <> 47%N) base ->
  ext <> [] ->
  Forall (fun c => c <> 47%N /\ c <> 46%N) ext ->
  stem (dir ++ base ++ lit "." ++ ext) = base /\
  json_path (dir ++ base ++ lit "." ++ ext) =
    lit "output/" ++ base ++ lit "_res.json" /\
  jpg_path (dir ++ base ++ lit "." ++ ext) = lit "output/" ++ base ++ lit ".jpg".
Proof.
  intros Hdir Hbase Hclean Hext Hextc.
  assert (Hstem : stem (dir ++ base ++ lit "." ++ ext) = base).
  { unfold stem. cbv zeta. rewrite path_name_last; auto.
    - change (lit ".") with [46%N]. cbn [app].
      rewrite rfind_last
        by (apply Forall_forall; intros c Hc; rewrite Forall_forall in Hextc;
            apply (Hextc c Hc)).
      match goal with
      | |- (if ?c then _ else _) = _ => assert (Hc : c = true)
      end.
      { apply andb_true_iff. split; apply Nat.ltb_lt.
        - destruct base; [contradiction|cbn; lia].
        - rewrite length_app. cbn [length].
          destruct ext; [contradiction|cbn [length]; lia]. }
      rewrite Hc.
      rewrite firstn_app, firstn_all, Nat.sub_diag. cbn [firstn].
      apply app_nil_r.
    - destruct base; [contradiction|discriminate].
    - destruct base as [|c [|c' base]]; [contradiction| |];
        destruct ext; try contradiction; cbn; discriminate.
    - apply Forall_app. split; [exact Hclean|].
      change (lit ".") with [46%N]. cbn [app]. constructor; [discriminate|].
      apply Forall_forall. intros c Hc. rewrite Forall_forall in Hextc.
      apply (Hextc c Hc). }
  unfold json_path, jpg_path. rewrite Hstem. auto.
Qed.

Lemma output_paths_witness :
  stem (lit "scans/vol.1/page.07.PNG") = lit "page.07" /\
  json_path (lit "scans/vol.1/page.07.PNG") = lit "output/page.07_res.json" /\
  jpg_path (lit "scans/vol.1/page.07.PNG") = lit "output/page.07.jpg".
Proof.
  apply (output_paths (lit "scans/vol.1/") (lit "page.07") (lit "PNG")).
  - right. exists (lit "scans/vol.1"). reflexivity.
  - discriminate.
  - repeat constructor; discriminate.
  - discriminate.
  - repeat constructor; discriminate.
Defined.

(** ** The order of the groups *)

Lemma ordered_mono (k k' : nat) (gs : list BoxGroup) :
  k <= k' -> ordered k gs -> ordered k' gs.
Proof.
  intros Hk [Hall Hsort]. split; [|exact Hsort].
  rewrite Forall_forall in *. intros g Hg.
  destruct (Hall g Hg) as (seed & added & H1 & H2 & H3).
  exists seed, added. repeat split; auto. lia.
Qed.

Lemma ordered_snoc (k : nat) (gs : list BoxGroup) (g : BoxGroup)
    (seed : obj) (added : list obj) :
  ordered k gs ->
  boxes g = seed :: added -> ident seed = k ->
  Forall (fun m => ident seed < ident m) added ->
  ordered (S k) (gs ++ [g]).
Proof.
  intros [Hall Hsort] Hb Hseed Hadded. split.
  - apply Forall_app. split.
    + rewrite Forall_forall in *. intros g0 Hg0.
      destruct (Hall g0 Hg0) as (s0 & a0 & H1 & H2 & H3).
      exists s0, a0. repeat split; auto.
    + constructor; [|constructor]. exists seed, added. repeat split; auto. lia.
  - intros i j g1 g2 Hij Hi Hj.
    destruct (Nat.lt_ge_cases j (length gs)) as [Hlt|Hge].
    + rewrite nth_error_app1 in Hi, Hj by lia. eauto.
    + rewrite nth_error_app2 in Hj by exact Hge.
      destruct (j - length gs) as [|n] eqn:E; cbn in Hj;
        [|destruct n; discriminate].
      injection Hj as <-.
      rewrite nth_error_app1 in Hi by lia.
      rewrite Forall_forall in Hall.
      destruct (Hall g1 (nth_error_In _ _ Hi)) as (s1 & a1 & H1 & H2 & _).
      unfold first_ident. rewrite H1, Hb. lia.
Qed.

Lemma make_groups_loop_ordered (all_boxes : list obj) (depth : nat) :
  length all_boxes <= depth ->
  forall rest k groups processed,
    incl rest all_boxes ->
    map ident rest = seq k (length rest) ->
    (forall o, In o all_boxes -> ident o < k -> contains processed o = true) ->
    ordered k groups ->
    exists groups' processed',
      make_groups_loop depth all_boxes rest groups processed =
        Some (groups', processed') /\
      ordered (k + length rest) groups'.
Proof.
  intros Hdepth rest. induction rest as [|box rest IH];
    intros k groups processed Hrest Hids Hlow Hord; cbn [make_groups_loop].
  - exists groups, processed. split; [reflexivity|].
    cbn [length]. rewrite Nat.add_0_r. exact Hord.
  - assert (Hbox : In box all_boxes) by (apply Hrest; left; reflexivity).
    assert (Hrest' : incl rest all_boxes)
      by (intros o Ho; apply Hrest; right; exact Ho).
    cbn [map length seq] in Hids. injection Hids as Hk Hids'.
    replace (k + length (box :: rest)) with (S k + length rest)
      by (cbn [length]; lia).
    destruct (contains processed box) eqn:Hc; cbn [negb].
    + apply IH; auto.
      * intros o Ho Hlt. destruct (Nat.eq_dec (ident o) k) as [E|N].
        -- apply contains_ident. rewrite E, <- Hk. apply contains_ident, Hc.
        -- apply Hlow; [exact Ho|lia].
      * apply ordered_mono with k; [lia|exact Hord].
    + destruct (find_next_neighbor_returns all_boxes depth box
                  (BoxGroup_init box, processed ++ [box]))
        as [[g1 processed1] Hcall].
      { cbn [snd].
        pose proof (unclaimed_claim all_boxes processed box Hbox Hc).
        pose proof (unclaimed_le_length all_boxes processed). lia. }
      rewrite Hcall.
      destruct (find_next_neighbor_traversed all_boxes depth box _ _ Hbox Hcall)
        as (added & T1 & T2 & T3 & _ & T5 & _).
      cbn [fst snd] in T1, T2, T5.
      assert (Hboxes : boxes (finish_init g1) = box :: added).
      { rewrite T1. apply region_boxes. }
      apply IH; auto.
      * intros o Ho Hlt. rewrite T2, !contains_app.
        destruct (Nat.eq_dec (ident o) k) as [E|N].
        -- assert (Hs : contains [box] o = true).
           { apply contains_ident. cbn [map]. left. congruence. }
           rewrite Hs, orb_true_r. reflexivity.
        -- rewrite (Hlow o Ho) by lia. reflexivity.
      * apply ordered_snoc with box added; auto.
        apply Forall_forall. intros m Hm.
        specialize (T5 m Hm). rewrite contains_app in T5.
        apply orb_false_elim in T5 as [T5a T5b].
        destruct (Nat.lt_trichotomy (ident m) (ident box)) as [Hlt|[E|Hgt]];
          [|        |exact Hgt].
        -- rewrite (Hlow m (T3 m Hm)) in T5a by lia. discriminate.
        -- assert (Hs : contains [box] m = true).
           { apply contains_ident. cbn [map]. left. congruence. }
           congruence.
Qed.

(** X21: the order of the result of [Page.make_groups].  Every group starts
    with the fragment that comes first in [Page.boxes] among its members,
    and the groups come in the order in which their first members come in
    [Page.boxes]. *)
Theorem make_groups_order (bs : list Box) :
  exists gs,
    make_groups bs = Some gs /\
    Forall (fun g => exists seed added,
                boxes g = seed :: added /\
                Forall (fun m => ident seed < ident m) added) gs /\
    (forall i j g g',
        i < j -> nth_error gs i = Some g -> nth_error gs j = Some g' ->
        first_ident g < first_ident g').
Proof.
  destruct (make_groups_loop_ordered (objects bs) (length bs)) with
    (rest := objects bs) (k := 0) (groups := @nil BoxGroup)
    (processed := @nil obj)
    as (gs & processed & Hrun & Hall & Hsort).
  - rewrite objects_length. apply le_n.
  - apply incl_refl.
  - rewrite objects_ident, objects_length. reflexivity.
  - intros o _ Hlt. lia.
  - split; [constructor|]. intros i j g g' _ Hi. destruct i; discriminate.
  - exists gs. split.
    + unfold make_groups, make_groups_trace. rewrite Hrun. reflexivity.
    + split; [|exact Hsort].
      rewrite Forall_forall in *. intros g Hg.
      destruct (Hall g Hg) as (seed & added & H1 & _ & H3).
      exists seed, added. auto.
Qed.

(** ** Page.load_boxes and Page.run on any record *)

Lemma Box_init_fields (t : str) (box : list Z) (s : float) (b : Box) :
  Box_init t box s = inr b -> text b = t /\ score b = s.
Proof.
  unfold Box_init.
  destruct (getitem box 0) as [e|x1]; [discriminate|]. cbn [bind].
  destruct (getitem box 2) as [e|x2]; [discriminate|]. cbn [bind].
  destruct (getitem box 1) as [e|y1]; [discriminate|]. cbn [bind].
  destruct (getitem box 3) as [e|y2]; [discriminate|]. cbn [bind ret].
  intros [= <-]. split; reflexivity.
Qed.

Lemma getitem_in {A} (l : list A) (i : nat) (a : A) :
  getitem l i = inr a -> In a l.
Proof.
  unfold getitem. destruct (nth_error l i) eqn:E; [|discriminate].
  intros [= <-]. apply nth_error_In with i. exact E.
Qed.

Lemma load_boxes_step_kept (d : ocr_data) (texts : list str) (acc acc' : list Box)
    (i : nat) :
  rec_texts d = Some texts ->
  load_boxes_step d acc i = inr acc' ->
  acc' = acc \/
  exists b, acc' = acc ++ [b] /\
            float_ge (score b) SCORE_THRESHOLD = true /\ In (text b) texts.
Proof.
  intros Ht. unfold load_boxes_step. rewrite Ht.
  destruct (rec_scores d) as [scores|]; [|discriminate]. cbn [getkey bind ret].
  destruct (getitem scores i) as [e|s] eqn:Hs; [discriminate|]. cbn [bind].
  destruct (float_ge s SCORE_THRESHOLD) eqn:Hge; [|intros [= <-]; left; reflexivity].
  destruct (getitem texts i) as [e|t] eqn:Hti; [discriminate|]. cbn [bind].
  destruct (rec_boxes d) as [bs|]; [|discriminate]. cbn [getkey bind ret].
  destruct (getitem bs i) as [e|b]; [discriminate|]. cbn [bind].
  destruct (Box_init t b s) as [e|nb] eqn:Hinit; [discriminate|].
  cbn [bind ret]. intros [= <-]. right. exists nb.
  destruct (Box_init_fields t b s nb Hinit) as [-> ->].
  split; [reflexivity|]. split; [exact Hge|apply (getitem_in texts i), Hti].
Qed.

Lemma load_boxes_loop_kept (d : ocr_data) (texts : list str) (l : list nat) :
  rec_texts d = Some texts ->
  forall acc acc',
    for_each (load_boxes_step d) l acc = inr acc' ->
    exists more,
      acc' = acc ++ more /\ length more <= length l /\
      Forall (fun b => float_ge (score b) SCORE_THRESHOLD = true /\
                       In (text b) texts) more.
Proof.
  intros Ht. induction l as [|i l IH]; intros acc acc' Hrun; cbn [for_each] in Hrun.
  - injection Hrun as <-. exists []. rewrite app_nil_r.
    split; [reflexivity|]. split; [apply le_n|constructor].
  - destruct (load_boxes_step d acc i) as [e|acc1] eqn:Hstep; [discriminate|].
    cbn [bind] in Hrun. destruct (IH acc1 acc' Hrun) as (more & -> & Hlen & Hall).
    destruct (load_boxes_step_kept d texts acc acc1 i Ht Hstep)
      as [->|(b & -> & Hb)].
    + exists more. split; [reflexivity|]. split; [cbn [length]; lia|exact Hall].
    + exists (b :: more). rewrite <- app_assoc. split; [reflexivity|].
      split; [cbn [length]; lia|constructor; assumption].
Qed.

(** X22: whatever the record holds, when [Page.load_boxes] returns, every
    fragment it returns has a score of at least 0.75 and a text of
    [rec_texts], and there are at most as many fragments as texts. *)
Theorem load_boxes_never_keeps_low_scores (d : ocr_data) (bs : list Box) :
  load_boxes d = inr bs ->
  exists texts,
    rec_texts d = Some texts /\
    length bs <= length texts /\
    Forall (fun b => float_ge (score b) SCORE_THRESHOLD = true /\
                     In (text b) texts) bs.
Proof.
  unfold load_boxes. destruct (rec_texts d) as [texts|] eqn:Ht; [|discriminate].
  cbn [getkey bind ret]. intros Hrun. exists texts. split; [reflexivity|].
  destruct (load_boxes_loop_kept d texts _ Ht _ _ Hrun) as (more & -> & Hlen & Hall).
  rewrite length_seq in Hlen. cbn [app]. auto.
Qed.

Lemma load_boxes_never_keeps_low_scores_witness :
  exists texts,
    Some [lit "a"; lit "b"] = Some texts /\
    length [mkBox 1 3 2 4 (lit "b") 1%float] <= length texts /\
    Forall (fun b => float_ge (score b) SCORE_THRESHOLD = true /\
                     In (text b) texts)
           [mkBox 1 3 2 4 (lit "b") 1%float].
Proof.
  apply (load_boxes_never_keeps_low_scores
           {| rec_texts := Some [lit "a"; lit "b"];
              rec_scores := Some [0.5%float; 1%float; 1%float];
              rec_boxes := Some [[]; [1; 2; 4; 6]%Z; [7]%Z] |}
           [mkBox 1 3 2 4 (lit "b") 1%float]).
  reflexivity.
Defined.

Lemma make_groups_returns (bs : list Box) : exists gs, make_groups bs = Some gs.
Proof.
  destruct (make_groups_facts bs) as (gs & Hrun & _). exists gs. exact Hrun.
Qed.

(** X23: [Page.run] fails exactly when loading fails, with the error of
    [load_data] or else of [load_boxes]; once the fragments are loaded the
    grouping always returns. *)
Theorem Page_run_fails_only_loading (fs : filesystem) (im : str) (e : error) :
  Page_run fs im = inl e <->
  load_data fs im = inl e \/
  exists d, load_data fs im = inr d /\ load_boxes d = inl e.
Proof.
  unfold Page_run. destruct (load_data fs im) as [e1|d]; cbn [bind].
  - split; [intros [= ->]; left; reflexivity|].
    intros [[= ->]|(d & Hd & _)]; [reflexivity|discriminate].
  - destruct (load_boxes d) as [e2|bs] eqn:Hb; cbn [bind].
    + split.
      * intros [= ->]. right. exists d. auto.
      * intros [H|(d' & [= <-] & Hd)]; [discriminate|]. congruence.
    + destruct (make_groups_returns bs) as [gs ->]. split; [discriminate|].
      intros [H|(d' & [= <-] & Hd)]; [discriminate|]. congruence.
Qed.

(** ** The main program *)

Lemma Translator_run_keeps {engine : Type}
    (translate : engine -> str -> engine * str) (pages : list Page) :
  forall e,
    Forall2 (fun p p' => image p' = image p /\
                         length (groups p') = length (groups p))
            pages (snd (Translator_run translate e pages)).
Proof.
  induction pages as [|p pages IH]; intros e; cbn [Translator_run].
  - constructor.
  - pose proof (translate_groups_asks translate (groups p) e) as (_ & _ & Hg).
    destruct (translate_groups translate e (groups p)) as [e1 gs].
    specialize (IH e1).
    destruct (Translator_run translate e1 pages) as [[e2 lines] pages2].
    cbn [snd] in *. constructor; [|exact IH].
    cbn [set_groups image groups]. split; [reflexivity|].
    symmetry. apply (Forall2_length Hg).
Qed.

Lemma Drawer_saves (getlength : str -> Q) (is_debug : bool) (pages : list Page) :
  filter is_save (Drawer_run getlength is_debug pages) =
  flat_map (fun page =>
              repeat (ImageSave (jpg_path (image page)) (lit "JPEG"))
                     (length (groups page)))
           pages.
Proof.
  unfold Drawer_run. rewrite filter_app, app_nil_r, filter_flat_map.
  induction pages as [|page pages IH]; [reflexivity|].
  cbn [flat_map]. rewrite IH. f_equal.
  unfold draw_page. cbn [app filter is_save]. rewrite filter_flat_map.
  induction (groups page) as [|g gs IHg]; [reflexivity|].
  cbn [flat_map length repeat]. rewrite draw_group_saves, IHg. reflexivity.
Qed.

Lemma filter_prints (lines : list str) : filter is_save (map Print lines) = [].
Proof. induction lines as [|l lines IH]; [reflexivity|exact IH]. Qed.

(** X24: one page that fails to load ends the whole run before anything is
    translated or drawn: the main program raises the error of that page,
    and no image is written, not even for the pages loaded before it. *)
Theorem main_fails_before_output {engine : Type} (fs : filesystem)
    (translate : engine -> str -> engine * str) (e : engine)
    (getlength : str -> Q) (pre post : list str) (im : str) (err : error) :
  (forall i, In i pre -> exists page, Page_run fs i = inr page) ->
  Page_run fs im = inl err ->
  main_after_reader fs translate e getlength (pre ++ im :: post) = inl err.
Proof.
  intros Hpre Hfail. unfold main_after_reader, Pager_run.
  rewrite Pager_loop_app.
  assert (Hloop : forall acc, exists pages, Pager_loop fs pre acc = (pages, None)).
  { clear - Hpre. induction pre as [|i pre IH]; intros acc; cbn [Pager_loop].
    - exists acc. reflexivity.
    - destruct (Hpre i (or_introl eq_refl)) as [page ->].
      apply IH. intros j Hj. apply Hpre. right. exact Hj. }
  destruct (Hloop []) as [pages ->]. cbn [Pager_loop]. rewrite Hfail.
  reflexivity.
Qed.

Lemma main_fails_before_output_witness :
  main_after_reader one_page echo tt ten_per_char
    ([lit "scans/page.png"] ++ lit "missing.png" :: [lit "page.png"]) =
  inl (FileNotFoundError (lit "output/missing_res.json")).
Proof.
  apply (main_fails_before_output one_page echo tt ten_per_char
           [lit "scans/page.png"] [lit "page.png"] (lit "missing.png")).
  - intros i [<-|[]]. eexists. reflexivity.
  - reflexivity.
Defined.

(** X25: when every page loads, the main program returns, and it writes
    the image of every page once for each of its groups, page after page in
    the order of the images, to [output/<stem>.jpg]; an image whose page has
    no group is not written. *)
Theorem main_writes_pages {engine : Type} (fs : filesystem)
    (translate : engine -> str -> engine * str) (e : engine)
    (getlength : str -> Q) (images : list str) :
  (forall i, In i images -> exists page, Page_run fs i = inr page) ->
  exists e' events pages,
    main_after_reader fs translate e getlength images = inr (e', events) /\
    Forall2 (fun i page => Page_run fs i = inr page) images pages /\
    filter is_save events =
    flat_map (fun ip =>
                repeat (ImageSave (jpg_path (fst ip)) (lit "JPEG"))
                       (length (groups (snd ip))))
             (combine images pages).
Proof.
  intros Hall. unfold main_after_reader, Pager_run.
  destruct (Pager_loop_prefix fs images []) as (pages & H1 & H2 & H3).
  destruct (Pager_loop fs images []) as [pages0 err]. cbn [fst snd app] in *.
  subst pages0. destruct err as [err|].
  { destruct H3 as (i & Hi & Hfail).
    destruct (Hall i (nth_error_In _ _ Hi)) as [page Hpage]. congruence. }
  rewrite H3, firstn_all in H2.
  pose proof (Translator_run_keeps translate pages e) as Hkeep.
  destruct (Translator_run translate e pages) as [[e' lines] pages'].
  cbn [snd] in Hkeep.
  exists e', (map Print lines ++ Drawer_run getlength false pages'), pages.
  split; [reflexivity|]. split; [exact H2|].
  rewrite filter_app, filter_prints, Drawer_saves. cbn [app].
  clear - H2 Hkeep. revert pages' Hkeep.
  induction H2 as [|i page images pages Hrun _ IH]; intros pages' Hkeep.
  - inversion Hkeep. reflexivity.
  - inversion Hkeep as [|? p' ? ps' [Him Hlen] Hrest]; subst.
    cbn [combine flat_map fst snd]. rewrite (IH ps' Hrest), Him, Hlen.
    rewrite (Page_run_image fs i page Hrun). reflexivity.
Qed.

Lemma main_writes_pages_witness :
  exists e' events pages,
    main_after_reader one_page echo tt ten_per_char [lit "scans/page.png"] =
      inr (e', events) /\
    Forall2 (fun i page => Page_run one_page i = inr page)
            [lit "scans/page.png"] pages /\
    filter is_save events =
    flat_map (fun ip =>
                repeat (ImageSave (jpg_path (fst ip)) (lit "JPEG"))
                       (length (groups (snd ip))))
             (combine [lit "scans/page.png"] pages).
Proof.
  apply (main_writes_pages one_page echo tt ten_per_char [lit "scans/page.png"]).
  intros i [<-|[]]. eexists. reflexivity.
Defined.
